(** * tacomail-client: a shallow embedding of the client library

    The development follows the TypeScript sources:
    - [types.ts]   the data model and the error classes,
    - [routes.ts]  the HTTP routes and [handleApiError],
    - [classes.ts] [TacomailClient] and [Inbox].

    The remote service (axios) is the environment: an oracle that, given the
    history of the interaction so far, answers a request with a latency and
    either a payload or a failure.  Time is a logical clock in milliseconds
    that only the environment and [setTimeout] advance.  JavaScript objects
    that are shared by reference (Session objects, string arrays) live in
    explicit stores indexed by locations.  Numbers are integers ([Z]):
    timestamps and durations in milliseconds.  The filter of [waitForMail]
    is a total function without effects. *)

From stdpp Require Import base option list strings gmap fin_maps pretty.
From Stdlib Require Import ZArith Lia Ascii.

Open Scope Z_scope.

(** ** JavaScript strings and values *)

Module Js.

(** [s.split(sep)] for a one-character separator. *)
Fixpoint split (sep : ascii) (s : string) : list string :=
  match s with
  | EmptyString => [EmptyString]
  | String c rest =>
      if Ascii.eqb c sep then EmptyString :: split sep rest
      else match split sep rest with
           | [] => [String c EmptyString]
           | x :: xs => String c x :: xs
           end
  end.

(** [const [a, b] = arr]: a missing element is [undefined], here [None]. *)
Definition destructure2 (arr : list string) : option string * option string :=
  (arr !! 0%nat, arr !! 1%nat).

(** Truthiness of a possibly undefined string: [undefined] and the empty
    string are falsy. *)
Definition truthy (v : option string) : bool :=
  match v with
  | Some s => negb (String.eqb s "")
  | None => false
  end.

(** [a || b] on possibly undefined strings. *)
Definition or (a b : option string) : option string :=
  if truthy a then a else b.

(** [s.startsWith(p)], and the rest of [s] after [p]. *)
Fixpoint strip_prefix (p s : string) : option string :=
  match p, s with
  | EmptyString, _ => Some s
  | String a p', String b s' => if Ascii.eqb a b then strip_prefix p' s' else None
  | String _ _, EmptyString => None
  end.

Definition startsWith (p s : string) : bool :=
  match strip_prefix p s with Some _ => true | None => false end.

(** The longest prefix of [s] without the character [c]. *)
Fixpoint take_until (c : ascii) (s : string) : string :=
  match s with
  | EmptyString => EmptyString
  | String a rest => if Ascii.eqb a c then EmptyString else String a (take_until c rest)
  end.

(** [s.includes(c)] for a character [c]. *)
Fixpoint includes (c : ascii) (s : string) : bool :=
  match s with
  | EmptyString => false
  | String a rest => Ascii.eqb a c || includes c rest
  end.

(** Template interpolation of an integral number. *)
Definition show (n : Z) : string := pretty n.

End Js.

(** ** types.ts *)

Record AttachmentType := mkAttachmentType {
  att_id : string;
  att_filename : string
}.

Record EmailAddress := mkEmailAddress {
  ea_address : string;
  ea_name : string
}.

Record MailBody := mkMailBody {
  body_text : string;
  body_html : string
}.

Record MailType := mkMailType {
  mt_id : string;
  mt_from : EmailAddress;
  mt_to : EmailAddress;
  mt_subject : string;
  mt_date : string;
  mt_body : MailBody;
  mt_headers : list (string * string);
  mt_attachments : list AttachmentType
}.

(** A Session object; [isValid] reads the clock, which is passed in. *)
Record Session := mkSession {
  address : string;
  expires : Z;
  server : string
}.

Definition isValid (now : Z) (s : Session) : bool := now <? expires s.

Definition set_expires (e : Z) (s : Session) : Session :=
  {| address := address s; expires := e; server := server s |}.

Record InboxOptions := mkInboxOptions {
  refreshInterval : option Z
}.

(** [TacomailError] and its subclasses; [err_name] is the [name] property,
    which tells the classes apart. *)
Record TacomailError := mkError {
  err_name : string;
  message : string;
  statusCode : option Z;
  endpoint : option string
}.

Definition new_TacomailError (msg : string) (status : option Z) (ep : option string)
  : TacomailError :=
  {| err_name := "TacomailError"; message := msg; statusCode := status; endpoint := ep |}.

Definition SessionExpiredError (addr : string) : TacomailError :=
  {| err_name := "SessionExpiredError";
     message := "Session for " +:+ addr +:+ " has expired";
     statusCode := Some 401;
     endpoint := Some "session" |}.

Definition InboxNotFoundError (addr : string) : TacomailError :=
  {| err_name := "InboxNotFoundError";
     message := "Inbox " +:+ addr +:+ " not found or no active session";
     statusCode := Some 404;
     endpoint := Some "inbox" |}.

(** ** routes.ts: failures of the transport and their translation *)

Record AxiosError := mkAxiosError {
  ax_status : option Z;
  ax_data_message : option string;
  ax_data_error : option string;
  ax_message : string
}.

Inductive Failure :=
| AxiosFailure (e : AxiosError)
| ErrorFailure (msg : string)
| UnknownFailure.

(** [endpoint.match(/GET \/mail\/([^\/]+)/)]: the leftmost occurrence of the
    prefix followed by at least one character other than a slash; the
    capture is the longest such run. *)
Fixpoint match_mail_address (s : string) : option string :=
  match s with
  | EmptyString => None
  | String _ rest =>
      match Js.strip_prefix "GET /mail/" s with
      | Some tail =>
          let cap := Js.take_until "/" tail in
          if String.eqb cap "" then match_mail_address rest else Some cap
      | None => match_mail_address rest
      end
  end.

Definition handleApiError (error : Failure) (ep : string) : TacomailError :=
  match error with
  | AxiosFailure ax =>
      if Js.startsWith "GET /mail/" ep && bool_decide (ax_status ax = Some 404) then
        InboxNotFoundError (default "unknown" (match_mail_address ep))
      else
        let msg :=
          Js.or (ax_data_message ax)
            (Js.or (ax_data_error ax)
               (Js.or (Some (ax_message ax)) (Some "Unknown API error"))) in
        new_TacomailError (default "Unknown API error" msg) (ax_status ax) (Some ep)
  | ErrorFailure msg => new_TacomailError msg None (Some ep)
  | UnknownFailure => new_TacomailError "Unknown error" None (Some ep)
  end.


(** ** The environment: remote service, clock, object stores *)

Definition loc := positive.

(** The requests the client issues through axios. *)
Inductive Request :=
| GetDomains (srv : string)
| GetMail (srv addr : string)
| PostSession (srv : string) (username domain : option string)
| DeleteSession (srv : string) (username domain : option string)
| GetSingleMail (srv addr mailId : string)
| DeleteMail (srv addr mailId : string)
| DeleteAllMail (srv addr : string)
| DownloadAttachment (srv addr mailId attachmentId : string)
| GetAttachments (srv addr mailId : string)
| GetContactEmail (srv : string)
| GetRandomUsername (srv : string).

(** What an observer of the run sees: requests and [setTimeout] sleeps. *)
Inductive Event :=
| EvCall (r : Request)
| EvSleep (ms : Z).

Definition Trace := list Event.

Definition is_sleep (e : Event) : bool :=
  match e with EvSleep _ => true | EvCall _ => false end.

Definition is_list_call (e : Event) : bool :=
  match e with EvCall (GetMail _ _) => true | _ => false end.

Definition is_domains_call (e : Event) : bool :=
  match e with EvCall (GetDomains _) => true | _ => false end.

Definition is_post_session (e : Event) : bool :=
  match e with EvCall (PostSession _ _ _) => true | _ => false end.

Definition count (p : Event → bool) (tr : Trace) : nat := length (List.filter p tr).

(** The remote service answers from the history so far: a latency in
    milliseconds and a payload or a failure.  [timer_lag] is how late a
    timer fires. *)
Record Service := mkService {
  get_domains : Trace → string → N * (Failure + list string);
  get_mail : Trace → string → string → N * (Failure + list MailType);
  post_session : Trace → string → option string → option string → N * (Failure + Z);
  delete_session : Trace → string → option string → option string → N * (Failure + unit);
  timer_lag : Trace → N
}.

Record World := mkWorld {
  clock : Z;
  trace : Trace;
  sessionStore : gmap loc Session;
  arrayStore : gmap loc (list string);
  timers : gmap nat Z
}.

Definition record_event (e : Event) (w : World) : World :=
  mkWorld (clock w) (trace w ++ [e]) (sessionStore w) (arrayStore w) (timers w).

Definition advance (ms : Z) (w : World) : World :=
  mkWorld (clock w + ms) (trace w) (sessionStore w) (arrayStore w) (timers w).

Definition with_sessionStore (h : gmap loc Session) (w : World) : World :=
  mkWorld (clock w) (trace w) h (arrayStore w) (timers w).

Definition with_arrayStore (h : gmap loc (list string)) (w : World) : World :=
  mkWorld (clock w) (trace w) (sessionStore w) h (timers w).

Definition with_timers (t : gmap nat Z) (w : World) : World :=
  mkWorld (clock w) (trace w) (sessionStore w) (arrayStore w) t.

(** ** Computations: state, exceptions, fuel *)

(** [Throw] is a rejected promise or a thrown error; [OutOfFuel] cuts a
    loop that has not finished; [Wrong] is a read through a reference that
    no object stands behind, which no run of the program produces. *)
Inductive Outcome (A : Type) :=
| Return (a : A)
| Throw (e : TacomailError)
| OutOfFuel
| Wrong.
Arguments Return {A} a.
Arguments Throw {A} e.
Arguments OutOfFuel {A}.
Arguments Wrong {A}.

Definition M (S A : Type) : Type := S → Outcome A * S.

Definition ret {S A} (a : A) : M S A := λ s, (Return a, s).

Definition bind {S A B} (m : M S A) (k : A → M S B) : M S B :=
  λ s, match m s with
       | (Return a, s') => k a s'
       | (Throw e, s') => (Throw e, s')
       | (OutOfFuel, s') => (OutOfFuel, s')
       | (Wrong, s') => (Wrong, s')
       end.

Definition throw {S A} (e : TacomailError) : M S A := λ s, (Throw e, s).
Definition wrong {S A} : M S A := λ s, (Wrong, s).
Definition out_of_fuel {S A} : M S A := λ s, (OutOfFuel, s).
Definition get {S} : M S S := λ s, (Return s, s).
Definition put {S} (s : S) : M S unit := λ _, (Return tt, s).
Definition modify {S} (f : S → S) : M S unit := λ s, (Return tt, f s).

Declare Scope comp_scope.
Delimit Scope comp_scope with comp.
Notation "x <- m ;; k" := (bind m (λ x, k))
  (at level 100, m at next level, right associativity) : comp_scope.
Notation "m ;;; k" := (bind m (λ _, k))
  (at level 100, right associativity) : comp_scope.
Open Scope comp_scope.

(** A computation on the world, run where more state is carried along. *)
Definition liftW {C A} (m : M World A) : M (C * World) A :=
  λ '(c, w), let '(o, w') := m w in (o, (c, w')).

(** [Date.now()] *)
Definition Date_now : M World Z := λ w, (Return (clock w), w).

(** The delay a timer of the runtime really runs with: Node keeps a delay
    from 1 to 2147483647 milliseconds and replaces any other by 1. *)
Definition TIMEOUT_MAX : Z := 2147483647.

Definition timer_delay (ms : Z) : Z :=
  if (1 <=? ms) && (ms <=? TIMEOUT_MAX) then ms else 1.

(** [await new Promise((resolve) => setTimeout(resolve, ms))]: the timer
    fires no earlier than its delay. *)
Definition sleep (svc : Service) (ms : Z) : M World unit :=
  λ w, (Return tt,
        advance (timer_delay ms + Z.of_N (timer_lag svc (trace w)))
                (record_event (EvSleep ms) w)).

(** A new array object. *)
Definition alloc_array (xs : list string) : M World loc :=
  λ w, let l := fresh (dom (arrayStore w)) in
       (Return l, with_arrayStore (<[l := xs]> (arrayStore w)) w).

Definition read_array (l : loc) : M World (list string) :=
  λ w, match arrayStore w !! l with
       | Some xs => (Return xs, w)
       | None => (Wrong, w)
       end.

(** A new Session object. *)
Definition alloc_session (s : Session) : M World loc :=
  λ w, let l := fresh (dom (sessionStore w)) in
       (Return l, with_sessionStore (<[l := s]> (sessionStore w)) w).

Definition read_session (l : loc) : M World Session :=
  λ w, match sessionStore w !! l with
       | Some s => (Return s, w)
       | None => (Wrong, w)
       end.

(** ** routes.ts *)

Section Routes.
Variable svc : Service.

(** One axios call inside [try { ... } catch (error) { throw
    handleApiError(error, endpoint) }], in its two halves: the request
    goes out when the route is called, the promise settles when the answer
    is in. *)
Definition send {A} (req : Request) (answer : Trace → N * (Failure + A))
    : World → (N * (Failure + A)) * World :=
  λ w, (answer (trace w), record_event (EvCall req) w).

Definition settle {A} (ep : string) (r : Failure + A) : Outcome A :=
  match r with
  | inr a => Return a
  | inl f => Throw (handleApiError f ep)
  end.

Definition request {A} (req : Request) (ep : string)
    (answer : Trace → N * (Failure + A)) : M World A :=
  λ w, let '((lat, r), w1) := send req answer w in
       (settle ep r, advance (Z.of_N lat) w1).

Definition getAvailableDomains (srv : string) : M World loc :=
  ds <- request (GetDomains srv) "GET /domains" (λ tr, get_domains svc tr srv) ;;
  alloc_array ds.

Definition getMailForAddress (addr srv : string) : M World (list MailType) :=
  request (GetMail srv addr) ("GET /mail/" +:+ addr) (λ tr, get_mail svc tr srv addr).

Definition createSession (username domain : option string) (srv : string) : M World Z :=
  request (PostSession srv username domain) "POST /session"
    (λ tr, post_session svc tr srv username domain).

Definition deleteSession (username domain : option string) (srv : string) : M World unit :=
  request (DeleteSession srv username domain) "DELETE /session"
    (λ tr, delete_session svc tr srv username domain).

End Routes.

(** ** classes.ts: Mail and Attachment *)

Record Attachment := mkAttachment {
  attachment_id : string;
  attachment_filename : string;
  attachment_address : string;
  attachment_mailId : string;
  attachment_server : string
}.

Definition new_Attachment (a : AttachmentType) (addr mailId srv : string) : Attachment :=
  mkAttachment (att_id a) (att_filename a) addr mailId srv.

Record Mail := mkMail {
  mail_id : string;
  mail_from : EmailAddress;
  mail_to : EmailAddress;
  mail_subject : string;
  mail_date : string;
  mail_body : MailBody;
  mail_headers : list (string * string);
  mail_attachments : list Attachment;
  mail_address : string;
  mail_server : string
}.

Definition new_Mail (mail : MailType) (addr srv : string) : Mail :=
  mkMail (mt_id mail) (mt_from mail) (mt_to mail) (mt_subject mail) (mt_date mail)
    (mt_body mail) (mt_headers mail)
    (map (λ a, new_Attachment a addr (mt_id mail) srv) (mt_attachments mail))
    addr srv.

(** ** A JavaScript [Map] with string keys: insertion order is kept, and
    setting a present key keeps its place. *)

Module JsMap.
Section JsMap.
Context {V : Type}.

Fixpoint get (k : string) (m : list (string * V)) : option V :=
  match m with
  | [] => None
  | (k', v) :: m' => if String.eqb k k' then Some v else get k m'
  end.

Fixpoint set (k : string) (v : V) (m : list (string * V)) : list (string * V) :=
  match m with
  | [] => [(k, v)]
  | (k', v') :: m' => if String.eqb k k' then (k', v) :: m' else (k', v') :: set k v m'
  end.

Fixpoint delete (k : string) (m : list (string * V)) : list (string * V) :=
  match m with
  | [] => []
  | (k', v') :: m' => if String.eqb k k' then m' else (k', v') :: delete k m'
  end.

Definition keys (m : list (string * V)) : list string := map fst m.
Definition values (m : list (string * V)) : list V := map snd m.
Definition clear (m : list (string * V)) : list (string * V) := [].

End JsMap.
End JsMap.

(** ** classes.ts: Inbox *)

Record Inbox := mkInbox {
  inbox_address : string;
  inbox_server : string;
  inbox_session : option loc;
  refreshTimer : option nat
}.

Definition new_Inbox (addr srv : string) (session : option loc) : Inbox :=
  mkInbox addr srv session None.

Definition TimeoutError (timeout : Z) : TacomailError :=
  new_TacomailError ("Timeout waiting for email after " +:+ Js.show timeout +:+ "ms")
    None None.

Definition NoSessionError : TacomailError :=
  new_TacomailError "No session to refresh" None None.

Definition InvalidAddressError : TacomailError :=
  new_TacomailError "Invalid email address format" None None.

Definition default_filter : Mail → bool := λ _, true.
Definition default_timeout : Z := 120000.
Definition default_interval : Z := 2000.

Section Inbox.
Variable svc : Service.

(** [this.session?.isValid() ?? false] *)
Definition hasActiveSession (this : Inbox) : M World bool :=
  match inbox_session this with
  | None => ret false
  | Some l =>
      s <- read_session l ;;
      now <- Date_now ;;
      ret (isValid now s)
  end.

Definition getAllMail (this : Inbox) : M World (list Mail) :=
  mailData <- getMailForAddress svc (inbox_address this) (inbox_server this) ;;
  ret (map (λ mail, new_Mail mail (inbox_address this) (inbox_server this)) mailData).

(** [new Set(existingMails.map((m) => m.id))] *)
Definition id_set (mails : list Mail) : gset string :=
  list_to_set (map mail_id mails).

Definition has (ids : gset string) (i : string) : bool := bool_decide (i ∈ ids).

(** The [while] loop of [waitForMail]; each unit of fuel pays for one
    evaluation of the loop condition. *)
Fixpoint waitForMail_loop (fuel : nat) (this : Inbox) (filter : Mail → bool)
    (timeout interval start : Z) (existingIds : gset string) : M World Mail :=
  match fuel with
  | O => out_of_fuel
  | S fuel' =>
      now <- Date_now ;;
      if now - start <? timeout then
        mails <- getAllMail this ;;
        match find (λ mail, negb (has existingIds (mail_id mail)) && filter mail) mails with
        | Some mail => ret mail
        | None =>
            match find (λ mail, has existingIds (mail_id mail) && filter mail) mails with
            | Some mail => ret mail
            | None =>
                sleep svc interval ;;;
                waitForMail_loop fuel' this filter timeout interval start existingIds
            end
        end
      else throw (TimeoutError timeout)
  end.

Definition waitForMail (fuel : nat) (this : Inbox) (filter : Mail → bool)
    (timeout interval : Z) : M World Mail :=
  start <- Date_now ;;
  existingMails <- getAllMail this ;;
  let existingIds := id_set existingMails in
  waitForMail_loop fuel this filter timeout interval start existingIds.

Definition refreshSession (this : Inbox) : M World unit :=
  match inbox_session this with
  | None => throw NoSessionError
  | Some l =>
      s <- read_session l ;;
      now <- Date_now ;;
      if negb (isValid now s) then throw (SessionExpiredError (inbox_address this))
      else
        let '(username, domain) := Js.destructure2 (Js.split "@" (inbox_address this)) in
        sessionData <- createSession svc username domain (inbox_server this) ;;
        modify (λ w, with_sessionStore (alter (set_expires sessionData) l (sessionStore w)) w)
  end.

(** One tick of the auto-refresh timer: a failure is logged, not thrown. *)
Definition refreshTick (this : Inbox) : M World unit :=
  λ w, match refreshSession this w with
       | (Throw _, w') => (Return tt, w')
       | r => r
       end.

Definition clearInterval (t : nat) (w : World) : World :=
  with_timers (delete t (timers w)) w.

Definition setInterval (interval : Z) (w : World) : nat * World :=
  let t := fresh (dom (timers w)) in
  (t, with_timers (<[t := interval]> (timers w)) w).

Definition enableAutoRefresh (interval : Z) (this : Inbox) (w : World) : Inbox * World :=
  let w1 := match refreshTimer this with
            | Some t => clearInterval t w
            | None => w
            end in
  let '(t, w2) := setInterval interval w1 in
  (mkInbox (inbox_address this) (inbox_server this) (inbox_session this) (Some t), w2).

Definition disableAutoRefresh (this : Inbox) (w : World) : Inbox * World :=
  match refreshTimer this with
  | Some t =>
      (mkInbox (inbox_address this) (inbox_server this) (inbox_session this) None,
       clearInterval t w)
  | None => (this, w)
  end.

Definition cleanup (shouldDeleteSession : bool) : M (Inbox * World) unit :=
  λ '(this, w),
    let '(this', w') := disableAutoRefresh this w in
    if shouldDeleteSession && bool_decide (is_Some (inbox_session this')) then
      let '(username, domain) := Js.destructure2 (Js.split "@" (inbox_address this')) in
      liftW (deleteSession svc username domain (inbox_server this')) (this', w')
    else (Return tt, (this', w')).

End Inbox.

(** ** classes.ts: TacomailClient *)

Record TacomailClient := mkClient {
  domainsCache : option loc;
  sessions : list (string * loc);
  client_server : string
}.

Definition new_TacomailClient (srv : string) : TacomailClient := mkClient None [] srv.

Definition with_domainsCache (l : loc) (c : TacomailClient) : TacomailClient :=
  mkClient (Some l) (sessions c) (client_server c).

Definition with_sessions (m : list (string * loc)) (c : TacomailClient) : TacomailClient :=
  mkClient (domainsCache c) m (client_server c).

(** A deletion that has been sent and has not settled yet. *)
Record Pending := mkPending {
  pending_address : string;
  pending_latency : N;
  pending_result : Failure + unit
}.

(** The rejection that settles first: the least latency among the failed
    deletions, the earlier one in dispatch order on a tie. *)
Fixpoint earliest_failure (ps : list Pending) : option (N * Failure) :=
  match ps with
  | [] => None
  | p :: ps' =>
      match pending_result p, earliest_failure ps' with
      | inl f, Some (lat', f') =>
          if (pending_latency p <=? lat')%N then Some (pending_latency p, f)
          else Some (lat', f')
      | inl f, None => Some (pending_latency p, f)
      | inr _, r => r
      end
  end.

Definition latest (ps : list Pending) : N :=
  foldr (λ p acc, N.max (pending_latency p) acc) 0%N ps.

Definition remove_settled (ps : list Pending) (m : list (string * loc)) : list (string * loc) :=
  foldl (λ m p, match pending_result p with
                | inr _ => JsMap.delete (pending_address p) m
                | inl _ => m
                end) m ps.

Section Client.
Variable svc : Service.

Definition this_client : M (TacomailClient * World) TacomailClient :=
  λ '(c, w), (Return c, (c, w)).

Definition update_client (f : TacomailClient → TacomailClient)
    : M (TacomailClient * World) unit :=
  λ '(c, w), (Return tt, (f c, w)).

Definition getDomains : M (TacomailClient * World) loc :=
  this <- this_client ;;
  cache <- match domainsCache this with
           | None =>
               l <- liftW (getAvailableDomains svc (client_server this)) ;;
               update_client (with_domainsCache l) ;;;
               ret l
           | Some l => ret l
           end ;;
  xs <- liftW (read_array cache) ;;
  liftW (alloc_array xs).

Definition createInbox (addr : string) (options : option InboxOptions)
    : M (TacomailClient * World) Inbox :=
  let '(username, domain) := Js.destructure2 (Js.split "@" addr) in
  if negb (Js.truthy username) || negb (Js.truthy domain) then throw InvalidAddressError
  else
    this <- this_client ;;
    sessionData <- liftW (createSession svc username domain (client_server this)) ;;
    session <- liftW (alloc_session (mkSession addr sessionData (client_server this))) ;;
    update_client (λ c, with_sessions (JsMap.set addr session (sessions c)) c) ;;;
    let inbox := new_Inbox addr (client_server this) (Some session) in
    match options ≫= refreshInterval with
    | Some interval =>
        if negb (interval =? 0) then
          λ '(c, w), let '(inbox', w') := enableAutoRefresh interval inbox w in
                     (Return inbox', (c, w'))
        else ret inbox
    | None => ret inbox
    end.

Definition getInbox (this : TacomailClient) (addr : string) : Inbox :=
  new_Inbox addr (client_server this) (JsMap.get addr (sessions this)).

Definition deleteSessionForInbox (addr : string) : M (TacomailClient * World) unit :=
  this <- this_client ;;
  match JsMap.get addr (sessions this) with
  | Some _ =>
      let '(username, domain) := Js.destructure2 (Js.split "@" addr) in
      liftW (deleteSession svc username domain (client_server this)) ;;;
      update_client (λ c, with_sessions (JsMap.delete addr (sessions c)) c)
  | None => ret tt
  end.

(** [this.deleteSessionForInbox(address)] up to its [await]: the request is
    sent, the promise is pending. *)
Definition dispatch_delete (this : TacomailClient) (addr : string) (w : World)
    : option Pending * World :=
  match JsMap.get addr (sessions this) with
  | Some _ =>
      let '(username, domain) := Js.destructure2 (Js.split "@" addr) in
      let '((lat, r), w') :=
        send (DeleteSession (client_server this) username domain)
             (λ tr, delete_session svc tr (client_server this) username domain) w in
      (Some (mkPending addr lat r), w')
  | None => (None, w)
  end.

(** [keys.map((address) => this.deleteSessionForInbox(address))] *)
Fixpoint dispatch_all (this : TacomailClient) (addrs : list string) (w : World)
    : list Pending * World :=
  match addrs with
  | [] => ([], w)
  | a :: addrs' =>
      let '(p, w1) := dispatch_delete this a w in
      let '(ps, w2) := dispatch_all this addrs' w1 in
      (match p with Some p => p :: ps | None => ps end, w2)
  end.

(** [await Promise.all(deletePromises)].  The state is the one reached when
    every pending deletion has settled: each fulfilled deletion has removed
    its address from the map, and the clock has passed the slowest answer.
    The promise is rejected with the rejection that settles first. *)
Definition await_all (ps : list Pending) : M (TacomailClient * World) unit :=
  λ '(c, w),
    let c' := with_sessions (remove_settled ps (sessions c)) c in
    let w' := advance (Z.of_N (latest ps)) w in
    match earliest_failure ps with
    | Some (_, f) => (Throw (handleApiError f "DELETE /session"), (c', w'))
    | None => (Return tt, (c', w'))
    end.

Definition deleteAllSessions : M (TacomailClient * World) unit :=
  this <- this_client ;;
  deletePromises <- (λ '(c, w), let '(ps, w') := dispatch_all this (JsMap.keys (sessions this)) w in
                                (Return ps, (c, w'))) ;;
  await_all deletePromises ;;;
  update_client (λ c, with_sessions (JsMap.clear (sessions c)) c).

Definition getActiveSessions : M (TacomailClient * World) (list loc) :=
  λ '(c, w),
    (Return (List.filter (λ l, match sessionStore w !! l with
                               | Some s => isValid (clock w) s
                               | None => false
                               end) (JsMap.values (sessions c))), (c, w)).

End Client.

(** ** The rest of routes.ts and the methods that use it *)

(** The body of an answer that is read as [data.field || data]: a text,
    or an object that may have the field as a text. *)
Inductive Payload :=
| PayloadText (s : string)
| PayloadObject (field : option string).

(** [data.field || data] *)
Definition field_or_data (data : Payload) : Payload :=
  match data with
  | PayloadObject (Some s) => if Js.truthy (Some s) then PayloadText s else data
  | _ => data
  end.

(** A value inside a template literal. *)
Definition template (v : Payload) : string :=
  match v with
  | PayloadText s => s
  | PayloadObject _ => "[object Object]"
  end.

(** The service with the routes that the client and the inbox do not need
    for sessions and listings; [random_pick] stands behind [Math.random]. *)
Record MailService := mkMailService {
  core :> Service;
  get_single_mail : Trace → string → string → string → N * (Failure + MailType);
  delete_mail : Trace → string → string → string → N * (Failure + unit);
  delete_all_mail : Trace → string → string → N * (Failure + unit);
  download_attachment :
    Trace → string → string → string → string → N * (Failure + list Byte.byte);
  get_attachments : Trace → string → string → string → N * (Failure + list AttachmentType);
  get_contact_email : Trace → string → N * (Failure + Payload);
  get_random_username : Trace → string → N * (Failure + Payload);
  random_pick : Trace → nat
}.

Section MoreRoutes.
Variable svc : MailService.

Definition getSingleMail (addr mailId srv : string) : M World MailType :=
  request (GetSingleMail srv addr mailId) ("GET /mail/" +:+ addr +:+ "/" +:+ mailId)
    (λ tr, get_single_mail svc tr srv addr mailId).

Definition deleteMail (addr mailId srv : string) : M World unit :=
  request (DeleteMail srv addr mailId) ("DELETE /mail/" +:+ addr +:+ "/" +:+ mailId)
    (λ tr, delete_mail svc tr srv addr mailId).

Definition deleteAllMailForAddress (addr srv : string) : M World unit :=
  request (DeleteAllMail srv addr) ("DELETE /mail/" +:+ addr)
    (λ tr, delete_all_mail svc tr srv addr).

Definition downloadAttachment (addr mailId attachmentId srv : string)
    : M World (list Byte.byte) :=
  request (DownloadAttachment srv addr mailId attachmentId)
    ("GET /mail/" +:+ addr +:+ "/" +:+ mailId +:+ "/" +:+ attachmentId)
    (λ tr, download_attachment svc tr srv addr mailId attachmentId).

Definition getAttachments (addr mailId srv : string) : M World (list AttachmentType) :=
  request (GetAttachments srv addr mailId)
    ("GET /mail/" +:+ addr +:+ "/" +:+ mailId +:+ "/attachments")
    (λ tr, get_attachments svc tr srv addr mailId).

Definition getContactEmail (srv : string) : M World Payload :=
  data <- request (GetContactEmail srv) "GET /contactEmail"
            (λ tr, get_contact_email svc tr srv) ;;
  ret (field_or_data data).

Definition getRandomUsername (srv : string) : M World Payload :=
  data <- request (GetRandomUsername srv) "GET /randomUsername"
            (λ tr, get_random_username svc tr srv) ;;
  ret (field_or_data data).

(** [Math.floor(Math.random() * n)]: some index below [n], and 0 for
    [n = 0]. *)
Definition random_index (n : nat) : M World nat :=
  λ w, (Return (match n with O => O | S _ => random_pick svc (trace w) `mod` n end)%nat, w).

(** [Inbox.deleteAllMail] *)
Definition Inbox_deleteAllMail (this : Inbox) : M World unit :=
  deleteAllMailForAddress (inbox_address this) (inbox_server this).

(** [Mail.delete] *)
Definition Mail_delete (this : Mail) : M World unit :=
  deleteMail (mail_address this) (mail_id this) (mail_server this).

(** [Attachment.download] *)
Definition Attachment_download (this : Attachment) : M World (list Byte.byte) :=
  downloadAttachment (attachment_address this) (attachment_mailId this)
    (attachment_id this) (attachment_server this).

Definition createRandomInbox (options : option InboxOptions)
    : M (TacomailClient * World) Inbox :=
  domainsRef <- getDomains svc ;;
  domains <- liftW (read_array domainsRef) ;;
  index <- liftW (random_index (length domains)) ;;
  let domain := domains !! index in
  this <- this_client ;;
  username <- liftW (getRandomUsername (client_server this)) ;;
  let addr := template username +:+ "@" +:+ default "undefined" domain in
  createInbox svc addr options.

End MoreRoutes.

(** ** [getDomains] in its two halves *)

(** A call of [getDomains] that has been made and has not returned: it
    waits for the answer to the request it sent at [sent_at], or it found
    the cache filled and has its copy already. *)
Inductive DomainsCall :=
| Fetching (sent_at : Z) (lat : N) (r : Failure + list string)
| Copied (o : Outcome loc).

Section GetDomainsHalves.
Variable svc : Service.

(** The call up to its [await]: with the cache empty the request goes
    out; with the cache filled the copy is made at once. *)
Definition getDomains_start (st : TacomailClient * World) : DomainsCall * (TacomailClient * World) :=
  let '(c, w) := st in
  match domainsCache c with
  | None =>
      let '((lat, r), w') :=
        send (GetDomains (client_server c)) (λ tr, get_domains svc tr (client_server c)) w in
      (Fetching (clock w) lat r, (c, w'))
  | Some l =>
      let '(o, st') := bind (liftW (read_array l)) (λ xs, liftW (alloc_array xs)) (c, w) in
      (Copied o, st')
  end.

(** The call from its [await] on: the answer is in, the array it carries
    becomes the cache, and a copy of the cache is returned. *)
Definition getDomains_resume (call : DomainsCall) : M (TacomailClient * World) loc :=
  match call with
  | Fetching sent_at lat r =>
      λ '(c, w),
        let w1 := advance (Z.max (clock w) (sent_at + Z.of_N lat) - clock w) w in
        match settle "GET /domains" r with
        | Return ds =>
            (l <- liftW (alloc_array ds) ;;
             update_client (with_domainsCache l) ;;;
             xs <- liftW (read_array l) ;;
             liftW (alloc_array xs)) (c, w1)
        | Throw e => (Throw e, (c, w1))
        | OutOfFuel => (OutOfFuel, (c, w1))
        | Wrong => (Wrong, (c, w1))
        end
  | Copied o => λ st, (o, st)
  end.

End GetDomainsHalves.

(** ** classes.ts: methods of Mail and Attachment *)

Definition getAttachmentCount (this : Mail) : nat := length (mail_attachments this).

Definition imageExtensions : list string :=
  ["jpg"; "jpeg"; "png"; "gif"; "webp"; "svg"; "bmp"; "ico"].

Section AttachmentMethods.
(** [String.prototype.toLowerCase] of the runtime. *)
Variable toLowerCase : string → string.

Definition getExtension (this : Attachment) : option string :=
  let parts := Js.split "." (attachment_filename this) in
  if (1 <? length parts)%nat then Some (toLowerCase (List.last parts "")) else None.

Definition isImage (this : Attachment) : bool :=
  let ext := getExtension this in
  if Js.truthy ext then bool_decide (default "" ext ∈ imageExtensions) else false.

End AttachmentMethods.

(** * Vocabulary of the statements *)

Definition new_events (w w' : World) : Trace := drop (length (trace w)) (trace w').

(** A computation keeps the Session objects when each of them is the same
    after it as before; new ones may have been created. *)
Definition keeps_sessions {A} (m : M World A) : Prop :=
  ∀ w, sessionStore w ⊆ sessionStore (m w).2.

Definition client_keeps_sessions {A} (m : M (TacomailClient * World) A) : Prop :=
  ∀ c w, sessionStore w ⊆ sessionStore (m (c, w)).2.2.

(** What a reader of the client's session map finds under an address. *)
Definition registered_session (c : TacomailClient) (w : World) (a : string) : option Session :=
  JsMap.get a (sessions c) ≫= λ l, sessionStore w !! l.

Section Vocabulary.
Variable svc : Service.

Definition list_call (this : Inbox) : Event :=
  EvCall (GetMail (inbox_server this) (inbox_address this)).

(** The service lists the same single mail whenever it is asked. *)
Definition lists_only (this : Inbox) (m : MailType) : Prop :=
  ∀ tr, (get_mail svc tr (inbox_server this) (inbox_address this)).2 = inr [m].



(** The caller's side of the domain list: [xs[i] = ...], [xs.push(...)] and
    the like overwrite the array object behind the reference. *)
Definition write_array (l : loc) (xs : list string) : M World unit :=
  modify (λ w, with_arrayStore (<[l := xs]> (arrayStore w)) w).

(** A caller that asks for the domains, notes what it got, and then
    changes the array it was handed into [f] of it. *)
Definition getDomains_then (f : list string → list string)
    : M (TacomailClient * World) (list string) :=
  l <- getDomains svc ;;
  xs <- liftW (read_array l) ;;
  liftW (write_array l (f xs)) ;;;
  ret xs.

(** One such call after the other. *)
Fixpoint getDomains_repeatedly (fs : list (list string → list string))
    : M (TacomailClient * World) (list (list string)) :=
  match fs with
  | [] => ret []
  | f :: fs' =>
      xs <- getDomains_then f ;;
      rest <- getDomains_repeatedly fs' ;;
      ret (xs :: rest)
  end.

(** The cache of the client holds the list [ds]. *)
Definition cache_holds (c : TacomailClient) (w : World) (ds : list string) : Prop :=
  ∃ l, domainsCache c = Some l ∧ arrayStore w !! l = Some ds.

(** The request that deletes the session of address [a]. *)
Definition delete_call (c : TacomailClient) (a : string) : Event :=
  EvCall (DeleteSession (client_server c)
            (Js.destructure2 (Js.split "@" a)).1 (Js.destructure2 (Js.split "@" a)).2).

Definition delete_calls (c : TacomailClient) : list Event :=
  map (delete_call c) (JsMap.keys (sessions c)).

(** What the service answers to the [i]-th of these requests, the one for
    address [a], when they are sent in a row from the world [w]. *)
Definition delete_answer (c : TacomailClient) (w : World) (i : nat) (a : string)
  : N * (Failure + unit) :=
  delete_session svc (trace w ++ take i (delete_calls c)) (client_server c)
    (Js.destructure2 (Js.split "@" a)).1 (Js.destructure2 (Js.split "@" a)).2.

End Vocabulary.

(** The map of a client is a JavaScript [Map]: no key occurs twice. *)
Definition unique_keys (c : TacomailClient) : Prop := NoDup (JsMap.keys (sessions c)).

(** The first mail of a listing that was not there at the baseline and
    passes the filter. *)
Definition first_new_match (filter : Mail → bool) (this : Inbox)
    (baseline listing : list MailType) : option Mail :=
  let mk := λ mail, new_Mail mail (inbox_address this) (inbox_server this) in
  find (λ mail, negb (has (id_set (map mk baseline)) (mail_id mail)) && filter mail)
    (map mk listing).

(** What the first poll returns: the first new match, else the first mail
    of the listing that passes the filter. *)
Definition first_poll_choice (filter : Mail → bool) (this : Inbox)
    (baseline listing : list MailType) : option Mail :=
  match first_new_match filter this baseline listing with
  | Some mail => Some mail
  | None =>
      find filter (map (λ mail, new_Mail mail (inbox_address this) (inbox_server this)) listing)
  end.

(** ** Concrete runs *)

Module Scenario.

Definition srv : string := "https://tacomail.de".
Definition addr : string := "abc@example.com".

Definition mail1 : MailType :=
  mkMailType "m1" (mkEmailAddress "alice@example.org" "Alice") (mkEmailAddress addr "")
    "Hello" "2024-01-01T00:00:00.000Z" (mkMailBody "hi" "<p>hi</p>") []
    [mkAttachmentType "a1" "note.txt"].

(** A service without latency that always lists [mails], grants sessions
    with the expiry [expiry] computes from the history, and deletes every
    session but those of the user [failing]. *)
Definition service (mails : list MailType) (expiry : Trace → Z) (failing : option string)
  : Service :=
  {| get_domains := λ _ _, (0%N, inr ["example.com"; "tacomail.de"]);
     get_mail := λ _ _ _, (0%N, inr mails);
     post_session := λ tr _ _ _, (0%N, inr (expiry tr));
     delete_session := λ _ _ u _,
       if bool_decide (u = failing ∧ is_Some failing)
       then (0%N, inl (AxiosFailure (mkAxiosError (Some 500) None None "Request failed")))
       else (0%N, inr tt);
     timer_lag := λ _, 0%N |}.

(** Deleting the session of user "b" fails. *)
Definition failing_b : Service := service [] (λ _, 5000) (Some "b").

(** A client with three registered sessions. *)
Definition client3 : TacomailClient :=
  mkClient None [("a@x.org", 1%positive); ("b@x.org", 2%positive); ("c@x.org", 3%positive)] srv.

Definition world3 : World :=
  mkWorld 1000 []
    (<[1%positive := mkSession "a@x.org" 5000 srv]>
       (<[2%positive := mkSession "b@x.org" 5000 srv]>
          (<[3%positive := mkSession "c@x.org" 5000 srv]> ∅)))
    ∅ ∅.

Definition steady : Service := service [mail1] (λ _, 5000) None.

(** The first session is granted until 5000, every later one until 1500. *)
Definition shrinking : Service :=
  service [] (λ tr, if bool_decide (count is_post_session tr = 0%nat) then 5000 else 1500) None.

(** The second session is granted until 9000. *)
Definition growing : Service :=
  service [] (λ tr, if bool_decide (count is_post_session tr = 0%nat) then 5000 else 9000) None.

Definition world0 : World := mkWorld 1000 [] ∅ ∅ ∅.

Definition inbox0 : Inbox := new_Inbox addr srv None.

Definition client0 : TacomailClient := new_TacomailClient srv.

(** The state after [client0.createInbox(addr)]. *)
Definition created (svc : Service) : Outcome Inbox * (TacomailClient * World) :=
  createInbox svc addr None (client0, world0).

Definition inbox1 (svc : Service) : Inbox :=
  match (created svc).1 with Return inbox => inbox | _ => inbox0 end.

Definition client1 (svc : Service) : TacomailClient := (created svc).2.1.
Definition world1 (svc : Service) : World := (created svc).2.2.

End Scenario.

(** More services and objects for concrete runs. *)

Module Cases.
Import Scenario.

Definition http500 : Failure :=
  AxiosFailure (mkAxiosError (Some 500) (Some "boom") None "Request failed with status code 500").

Definition http404 : AxiosError :=
  mkAxiosError (Some 404) None None "Request failed with status code 404".

(** Nothing works: listings are answered with 404, the rest with 500. *)
Definition down : Service :=
  {| get_domains := λ _ _, (0%N, inl http500);
     get_mail := λ _ _ _, (0%N, inl (AxiosFailure http404));
     post_session := λ _ _ _ _, (0%N, inl http500);
     delete_session := λ _ _ _ _, (0%N, inl http500);
     timer_lag := λ _, 0%N |}.

(** The first session is granted until 5000, every later one is refused. *)
Definition flaky : Service :=
  {| get_domains := λ _ _, (0%N, inr ["example.com"]);
     get_mail := λ _ _ _, (0%N, inr []);
     post_session := λ tr _ _ _,
       if bool_decide (count is_post_session tr = 0%nat) then (0%N, inr 5000)
       else (0%N, inl http500);
     delete_session := λ _ _ _ _, (0%N, inr tt);
     timer_lag := λ _, 0%N |}.

Definition mail2 : MailType :=
  mkMailType "m2" (mkEmailAddress "bob@example.org" "Bob") (mkEmailAddress addr "")
    "News" "2024-01-02T00:00:00.000Z" (mkMailBody "new" "<p>new</p>") [] [].

(** [mail1] is there from the start; [mail2] arrives after the first
    listing and is listed behind [mail1]. *)
Definition arriving : Service :=
  {| get_domains := λ _ _, (0%N, inr ["example.com"]);
     get_mail := λ tr _ _,
       if bool_decide (count is_list_call tr = 0%nat) then (0%N, inr [mail1])
       else (0%N, inr [mail1; mail2]);
     post_session := λ _ _ _ _, (0%N, inr 5000);
     delete_session := λ _ _ _ _, (0%N, inr tt);
     timer_lag := λ _, 0%N |}.

Definition photo : Attachment := mkAttachment "a1" "holiday.2024.png" addr "m1" srv.

(** A service [s] together with answers for the remaining routes. *)
Definition full (s : Service) : MailService :=
  {| core := s;
     get_single_mail := λ _ _ _ _, (0%N, inr mail1);
     delete_mail := λ _ _ _ _, (0%N, inr tt);
     delete_all_mail := λ _ _ _, (0%N, inr tt);
     download_attachment := λ _ _ _ _ _, (0%N, inr []);
     get_attachments := λ _ _ _ _, (0%N, inr [mkAttachmentType "a1" "note.txt"]);
     get_contact_email := λ _ _, (0%N, inr (PayloadObject (Some "admin@tacomail.de")));
     get_random_username := λ _ _, (0%N, inr (PayloadObject (Some "abc")));
     random_pick := λ _, 0%nat |}.

End Cases.

(** * Properties *)

(** ** JavaScript strings *)

Example split_plain : Js.split "@" "abc@example.com" = ["abc"; "example.com"].
Proof. reflexivity. Qed.

Example split_three : Js.split "@" "a@b@c" = ["a"; "b"; "c"].
Proof. reflexivity. Qed.

Example split_empty : Js.split "@" "" = [""].
Proof. reflexivity. Qed.

Example show_timeout : Js.show 120000 = "120000".
Proof. reflexivity. Qed.

Example match_mail_address_ex :
  match_mail_address "GET /mail/a@b.c/17" = Some "a@b.c".
Proof. reflexivity. Qed.

(** ** Errors raised locally and errors of the service *)

(** Every error that [handleApiError] builds names the endpoint that
    failed, except the not-found error of the mail listing, which names
    the inbox. *)
Lemma handleApiError_endpoint (f : Failure) (ep : string) :
  is_Some (endpoint (handleApiError f ep)).
Proof.
  destruct f as [ax| |]; cbn; [|eauto..].
  destruct (_ && _); cbn; eauto.
Qed.

Lemma local_error_not_service (e : TacomailError) (f : Failure) (ep : string) :
  endpoint e = None → handleApiError f ep ≠ e.
Proof.
  intros He Heq. pose proof (handleApiError_endpoint f ep) as [x Hx].
  rewrite Heq, He in Hx. discriminate.
Qed.

(** ** Session refresh *)

Section RefreshSession.
Variable svc : Service.

Lemma refreshSession_expired_run (this : Inbox) (l : loc) (s : Session) (w : World) :
  inbox_session this = Some l →
  sessionStore w !! l = Some s →
  expires s ≤ clock w →
  refreshSession svc this w = (Throw (SessionExpiredError (inbox_address this)), w).
Proof.
  intros Hs Hl Hexp.
  unfold refreshSession. rewrite Hs. unfold bind, read_session, Date_now.
  rewrite Hl. unfold isValid.
  destruct (Z.ltb_spec (clock w) (expires s)) as [Hlt|Hge]; [lia|]. reflexivity.
Qed.

(** C3: an Inbox whose Session has expired ([expires <= now]) gets
    [SessionExpiredError] for its address from [refreshSession]; the world
    is left as it was: no request is sent, the Session is unchanged. *)
Theorem refreshSession_expired (this : Inbox) (l : loc) (s : Session) (w : World) :
  inbox_session this = Some l →
  sessionStore w !! l = Some s →
  expires s ≤ clock w →
  refreshSession svc this w = (Throw (SessionExpiredError (inbox_address this)), w)
  ∧ message (SessionExpiredError (inbox_address this))
      = "Session for " +:+ inbox_address this +:+ " has expired"
  ∧ err_name (SessionExpiredError (inbox_address this)) = "SessionExpiredError".
Proof.
  intros Hs Hl Hexp. split; [|done].
  by apply (refreshSession_expired_run this l s).
Qed.

(** C4: an Inbox without a Session gets the local "no session" error from
    [refreshSession]: an error without status code and endpoint, which no
    failure of the service produces; no request is sent. *)
Theorem refreshSession_no_session (this : Inbox) (w : World) :
  inbox_session this = None →
  refreshSession svc this w = (Throw NoSessionError, w)
  ∧ message NoSessionError = "No session to refresh"
  ∧ statusCode NoSessionError = None
  ∧ endpoint NoSessionError = None
  ∧ (∀ f ep, handleApiError f ep ≠ NoSessionError)
  ∧ (∀ a, SessionExpiredError a ≠ NoSessionError).
Proof.
  intros Hs. unfold refreshSession. rewrite Hs.
  repeat split; try reflexivity.
  - intros f ep. by apply local_error_not_service.
  - intros a. discriminate.
Qed.

End RefreshSession.

(** ** Waiting for mail *)

Section WaitForMail.
Variable svc : Service.

Lemma getAllMail_run (this : Inbox) (w : World) :
  getAllMail svc this w =
    (match (get_mail svc (trace w) (inbox_server this) (inbox_address this)).2 with
     | inr mails =>
         Return (map (λ mail, new_Mail mail (inbox_address this) (inbox_server this)) mails)
     | inl f => Throw (handleApiError f ("GET /mail/" +:+ inbox_address this))
     end,
     advance (Z.of_N (get_mail svc (trace w) (inbox_server this) (inbox_address this)).1)
       (record_event (list_call this) w)).
Proof.
  unfold getAllMail, getMailForAddress, bind, request, send, settle.
  destruct (get_mail svc (trace w) _ _) as [lat [f|mails]]; reflexivity.
Qed.

Lemma waitForMail_unfold fuel this filter timeout interval w :
  waitForMail svc fuel this filter timeout interval w =
    match (get_mail svc (trace w) (inbox_server this) (inbox_address this)).2 with
    | inr mails =>
        waitForMail_loop svc fuel this filter timeout interval (clock w)
          (id_set (map (λ mail, new_Mail mail (inbox_address this) (inbox_server this)) mails))
          (advance (Z.of_N (get_mail svc (trace w) (inbox_server this) (inbox_address this)).1)
             (record_event (list_call this) w))
    | inl f =>
        (Throw (handleApiError f ("GET /mail/" +:+ inbox_address this)),
         advance (Z.of_N (get_mail svc (trace w) (inbox_server this) (inbox_address this)).1)
           (record_event (list_call this) w))
    end.
Proof.
  unfold waitForMail, bind, Date_now. rewrite getAllMail_run.
  destruct (get_mail svc (trace w) _ _) as [lat [f|mails]]; reflexivity.
Qed.



(** One turn of the loop while the budget lasts. *)
Lemma waitForMail_loop_step fuel this filter timeout interval start ids w :
  clock w - start < timeout →
  waitForMail_loop svc (S fuel) this filter timeout interval start ids w =
    let w1 := advance (Z.of_N (get_mail svc (trace w) (inbox_server this) (inbox_address this)).1)
                (record_event (list_call this) w) in
    match (get_mail svc (trace w) (inbox_server this) (inbox_address this)).2 with
    | inl f => (Throw (handleApiError f ("GET /mail/" +:+ inbox_address this)), w1)
    | inr mailData =>
        let mails := map (λ mail, new_Mail mail (inbox_address this) (inbox_server this))
                       mailData in
        match find (λ mail, negb (has ids (mail_id mail)) && filter mail) mails with
        | Some mail => (Return mail, w1)
        | None =>
            match find (λ mail, has ids (mail_id mail) && filter mail) mails with
            | Some mail => (Return mail, w1)
            | None =>
                waitForMail_loop svc fuel this filter timeout interval start ids
                  (advance (timer_delay interval + Z.of_N (timer_lag svc (trace w1)))
                     (record_event (EvSleep interval) w1))
            end
        end
    end.
Proof.
  intros Hlt. cbn [waitForMail_loop]. unfold bind at 1, Date_now.
  destruct (Z.ltb_spec (clock w - start) timeout) as [_|?]; [|lia].
  unfold bind at 1. rewrite getAllMail_run.
  destruct (get_mail svc (trace w) _ _) as [lat [f|mailData]]; cbn [fst snd]; [done|].
  destruct (find _ _); [done|]. destruct (find _ _); [done|].
  reflexivity.
Qed.

(** A mail that is there from the start and matches is found by the first
    poll: two requests, the baseline and the poll, and no sleep. *)
Lemma waitForMail_fixed_mail_run fuel this timeout interval m w :
  lists_only svc this m →
  Z.of_N (get_mail svc (trace w) (inbox_server this) (inbox_address this)).1 < timeout →
  ∃ w', waitForMail svc (S fuel) this default_filter timeout interval w
          = (Return (new_Mail m (inbox_address this) (inbox_server this)), w')
        ∧ trace w' = trace w ++ [list_call this; list_call this]
        ∧ clock w' = clock w
            + Z.of_N (get_mail svc (trace w) (inbox_server this) (inbox_address this)).1
            + Z.of_N (get_mail svc (trace w ++ [list_call this])
                        (inbox_server this) (inbox_address this)).1.
Proof.
  intros Hm Hlat. rewrite waitForMail_unfold, Hm.
  rewrite waitForMail_loop_step by (cbn; lia).
  cbn zeta. rewrite Hm. cbn [map find].
  assert (Hin : has (id_set [new_Mail m (inbox_address this) (inbox_server this)])
                  (mail_id (new_Mail m (inbox_address this) (inbox_server this))) = true).
  { unfold has, id_set. apply bool_decide_eq_true. cbn. set_solver. }
  rewrite Hin. cbn.
  eexists; split; [reflexivity|]. cbn. by rewrite <- app_assoc.
Qed.


(** Every timer runs for a millisecond at least. *)
Lemma timer_delay_pos (ms : Z) : 1 ≤ timer_delay ms.
Proof. unfold timer_delay. destruct (Z.leb_spec 1 ms); cbn; [|lia]. destruct (_ <=? _); lia. Qed.



(** C1 (as the code has it): when the service lists the same mail on
    every call and the baseline fetch has not used up the timeout, a
    match-all [waitForMail] returns that mail from the first poll: after
    two listings, the baseline and one poll, and before any sleep. *)
Theorem waitForMail_preexisting_mail
    (fuel : nat) (this : Inbox) (timeout interval : Z) (m : MailType) (w : World) :
  lists_only svc this m →
  Z.of_N (get_mail svc (trace w) (inbox_server this) (inbox_address this)).1 < timeout →
  ∃ mail w', waitForMail svc (S fuel) this default_filter timeout interval w = (Return mail, w')
    ∧ mail_id mail = mt_id m
    ∧ new_events w w' = [list_call this; list_call this]
    ∧ count is_list_call (new_events w w') = 2%nat
    ∧ count is_sleep (new_events w w') = 0%nat.
Proof.
  intros Hm Hlat.
  destruct (waitForMail_fixed_mail_run fuel this timeout interval m w Hm Hlat)
    as (w' & Hrun & Htr & _).
  exists (new_Mail m (inbox_address this) (inbox_server this)), w'.
  unfold new_events. rewrite Htr, drop_app_length.
  repeat split; done.
Qed.

End WaitForMail.

Section WaitForMailRuns.
Import Scenario.

Lemma waitForMail_preexisting_mail_witness :
  ∃ mail w', waitForMail steady 1 inbox0 default_filter default_timeout default_interval world0
               = (Return mail, w')
    ∧ mail_id mail = "m1"
    ∧ new_events world0 w' = [list_call inbox0; list_call inbox0]
    ∧ count is_list_call (new_events world0 w') = 2%nat
    ∧ count is_sleep (new_events world0 w') = 0%nat.
Proof.
  apply (waitForMail_preexisting_mail steady 0 inbox0 default_timeout default_interval
           mail1 world0).
  - intros tr. reflexivity.
  - reflexivity.
Defined.

(** "Returned after exactly one sleep interval" does not hold, whether
    the interval is counted in sleeps or in time: on the service that
    always lists [mail1] the call returns before any sleep, at the time it
    was made. *)
Lemma waitForMail_preexisting_one_sleep_refuted :
  ¬ (∀ (svc : Service) (this : Inbox) (timeout interval : Z) (m : MailType) (w : World),
       lists_only svc this m →
       ∃ fuel mail w',
         waitForMail svc fuel this default_filter timeout interval w = (Return mail, w')
         ∧ mail_id mail = mt_id m
         ∧ (count is_sleep (new_events w w') = 1%nat ∨ interval ≤ clock w' - clock w)).
Proof.
  intros H.
  destruct (H steady inbox0 default_timeout default_interval mail1 world0)
    as (fuel & mail & w' & Hrun & _ & Hsleep).
  { intros tr. reflexivity. }
  destruct fuel as [|fuel].
  - discriminate Hrun.
  - destruct (waitForMail_fixed_mail_run steady fuel inbox0
                default_timeout default_interval mail1 world0) as (w0 & Hrun0 & Htr & Hclock).
    { intros tr. reflexivity. }
    { reflexivity. }
    rewrite Hrun0 in Hrun. injection Hrun as _ <-.
    unfold new_events in Hsleep. rewrite Htr, drop_app_length in Hsleep.
    rewrite Hclock in Hsleep. unfold default_interval in Hsleep. cbn in Hsleep.
    destruct Hsleep as [Hsleep|Hsleep]; [discriminate Hsleep|lia].
Qed.



End WaitForMailRuns.

(** ** Session objects are only written by a refresh *)

Create HintDb keeps.

Section KeepsSessions.
Variable svc : Service.

Lemma keeps_ret {A} (a : A) : keeps_sessions (ret a).
Proof. intros w. done. Qed.

Lemma keeps_throw {A} e : keeps_sessions (@throw World A e).
Proof. intros w. done. Qed.

Lemma keeps_out_of_fuel {A} : keeps_sessions (@out_of_fuel World A).
Proof. intros w. done. Qed.

Lemma keeps_bind {A B} (m : M World A) (k : A → M World B) :
  keeps_sessions m → (∀ a, keeps_sessions (k a)) → keeps_sessions (bind m k).
Proof.
  intros Hm Hk w. unfold bind. specialize (Hm w).
  destruct (m w) as [[a|e| |] w1]; cbn in *; [|done..].
  etrans; [exact Hm|]. apply Hk.
Qed.

Lemma keeps_Date_now : keeps_sessions Date_now.
Proof. intros w. done. Qed.

Lemma keeps_sleep ms : keeps_sessions (sleep svc ms).
Proof. intros w. done. Qed.

Lemma keeps_request {A} req ep (answer : Trace → N * (Failure + A)) :
  keeps_sessions (request req ep answer).
Proof. intros w. unfold request, send. by destruct (answer _) as [lat r]. Qed.

Lemma keeps_alloc_array xs : keeps_sessions (alloc_array xs).
Proof. intros w. done. Qed.

Lemma keeps_read_array l : keeps_sessions (read_array l).
Proof. intros w. unfold read_array. by destruct (_ !! _). Qed.

Lemma keeps_read_session l : keeps_sessions (read_session l).
Proof. intros w. unfold read_session. by destruct (_ !! _). Qed.

Lemma keeps_alloc_session s : keeps_sessions (alloc_session s).
Proof.
  intros w. cbn. apply insert_subseteq, not_elem_of_dom, is_fresh.
Qed.

Hint Resolve keeps_ret keeps_throw keeps_out_of_fuel keeps_Date_now keeps_sleep
  keeps_request keeps_alloc_array keeps_read_array keeps_read_session
  keeps_alloc_session : keeps.

Ltac keeps_steps :=
  repeat first
    [ progress intros
    | apply keeps_bind
    | match goal with
      | |- keeps_sessions (match ?x with _ => _ end) => destruct x
      | |- keeps_sessions (if ?b then _ else _) => destruct b
      end
    | solve [eauto with keeps] ].

Lemma keeps_getAllMail this : keeps_sessions (getAllMail svc this).
Proof. unfold getAllMail, getMailForAddress. keeps_steps. Qed.

Lemma keeps_waitForMail_loop fuel this filter timeout interval start ids :
  keeps_sessions (waitForMail_loop svc fuel this filter timeout interval start ids).
Proof.
  induction fuel as [|fuel IH]; cbn [waitForMail_loop]; [apply keeps_out_of_fuel|].
  pose proof (keeps_getAllMail this). keeps_steps.
Qed.

Lemma keeps_waitForMail fuel this filter timeout interval :
  keeps_sessions (waitForMail svc fuel this filter timeout interval).
Proof.
  unfold waitForMail.
  pose proof (keeps_getAllMail this).
  pose proof (keeps_waitForMail_loop fuel this filter timeout interval).
  keeps_steps.
Qed.

Lemma keeps_hasActiveSession this : keeps_sessions (hasActiveSession this).
Proof. unfold hasActiveSession. keeps_steps. Qed.

Lemma keeps_deleteSession u d s : keeps_sessions (deleteSession svc u d s).
Proof. unfold deleteSession. keeps_steps. Qed.

Lemma keeps_createSession u d s : keeps_sessions (createSession svc u d s).
Proof. unfold createSession. keeps_steps. Qed.

Lemma keeps_getAvailableDomains s : keeps_sessions (getAvailableDomains svc s).
Proof. unfold getAvailableDomains. keeps_steps. Qed.

Lemma keeps_enableAutoRefresh interval this w :
  sessionStore (enableAutoRefresh interval this w).2 = sessionStore w.
Proof. unfold enableAutoRefresh. by destruct (refreshTimer this). Qed.

Lemma keeps_disableAutoRefresh this w :
  sessionStore (disableAutoRefresh this w).2 = sessionStore w.
Proof. unfold disableAutoRefresh. by destruct (refreshTimer this). Qed.

Lemma keeps_cleanup flag this w :
  sessionStore w ⊆ sessionStore (cleanup svc flag (this, w)).2.2.
Proof.
  unfold cleanup.
  pose proof (keeps_disableAutoRefresh this w) as Hd.
  destruct (disableAutoRefresh this w) as [this' w']. cbn in Hd. rewrite <- Hd.
  destruct (_ && _); [|done].
  destruct (Js.destructure2 _) as [u d]. unfold liftW.
  pose proof (keeps_deleteSession u d (inbox_server this') w') as Hk.
  by destruct (deleteSession _ _ _ _ _).
Qed.

(** The same for the methods of the client. *)

Lemma client_keeps_liftW {A} (m : M World A) :
  keeps_sessions m → client_keeps_sessions (liftW m).
Proof. intros Hm c w. unfold liftW. specialize (Hm w). by destruct (m w). Qed.

Lemma client_keeps_ret {A} (a : A) : client_keeps_sessions (ret a).
Proof. intros c w. done. Qed.

Lemma client_keeps_throw {A} e : client_keeps_sessions (@throw _ A e).
Proof. intros c w. done. Qed.

Lemma client_keeps_this : client_keeps_sessions this_client.
Proof. intros c w. done. Qed.

Lemma client_keeps_update f : client_keeps_sessions (update_client f).
Proof. intros c w. done. Qed.

Lemma client_keeps_bind {A B} (m : M _ A) (k : A → M _ B) :
  client_keeps_sessions m → (∀ a, client_keeps_sessions (k a)) →
  client_keeps_sessions (bind m k).
Proof.
  intros Hm Hk c w. unfold bind. specialize (Hm c w).
  destruct (m (c, w)) as [[a|e| |] [c1 w1]]; cbn in *; [|done..].
  etrans; [exact Hm|]. apply Hk.
Qed.

Hint Resolve client_keeps_ret client_keeps_throw client_keeps_this client_keeps_update
  keeps_getAvailableDomains keeps_createSession keeps_deleteSession : keeps.

Ltac client_keeps_steps :=
  repeat first
    [ progress intros
    | apply client_keeps_bind
    | apply client_keeps_liftW
    | match goal with
      | |- client_keeps_sessions (match ?x with _ => _ end) => destruct x
      | |- client_keeps_sessions (if ?b then _ else _) => destruct b
      end
    | solve [eauto with keeps] ].

Lemma client_keeps_getDomains : client_keeps_sessions (getDomains svc).
Proof. unfold getDomains. client_keeps_steps. Qed.

Lemma client_keeps_createInbox addr options :
  client_keeps_sessions (createInbox svc addr options).
Proof.
  unfold createInbox. client_keeps_steps.
Qed.

Lemma client_keeps_deleteSessionForInbox addr :
  client_keeps_sessions (deleteSessionForInbox svc addr).
Proof. unfold deleteSessionForInbox. client_keeps_steps. Qed.

Lemma dispatch_all_sessionStore this addrs w :
  sessionStore (dispatch_all svc this addrs w).2 = sessionStore w.
Proof.
  revert w. induction addrs as [|a addrs IH]; intros w; [done|].
  cbn [dispatch_all]. unfold dispatch_delete, send.
  destruct (JsMap.get _ _).
  - destruct (Js.destructure2 _) as [u d].
    destruct (delete_session _ _ _ _ _) as [lat r].
    specialize (IH (record_event (EvCall (DeleteSession (client_server this) u d)) w)).
    destruct (dispatch_all _ _ _ _) as [ps w2]. exact IH.
  - specialize (IH w). destruct (dispatch_all _ _ _ _) as [ps w2]. exact IH.
Qed.

Lemma client_keeps_deleteAllSessions : client_keeps_sessions (deleteAllSessions svc).
Proof.
  unfold deleteAllSessions. client_keeps_steps.
  - intros c w. pose proof (dispatch_all_sessionStore a (JsMap.keys (sessions a)) w) as Hd.
    destruct (dispatch_all _ _ _ _) as [ps w']. cbn in *. by rewrite Hd.
  - intros c w. unfold await_all. by destruct (earliest_failure _) as [[??]|].
Qed.

Lemma client_keeps_getActiveSessions : client_keeps_sessions getActiveSessions.
Proof. intros c w. done. Qed.

End KeepsSessions.

Section RefreshSessionRuns.
Variable svc : Service.

Lemma alter_present (f : Session → Session) (l : loc) (s : Session) (h : gmap loc Session) :
  h !! l = Some s → alter f l h = <[l := f s]> h.
Proof.
  intros Hl. apply map_eq. intros i. rewrite lookup_alter, lookup_insert.
  case_decide; subst; [by rewrite Hl|done].
Qed.

(** A refresh of a valid Session, step by step. *)
Lemma refreshSession_valid_run (this : Inbox) (l : loc) (s : Session) (w : World) :
  inbox_session this = Some l →
  sessionStore w !! l = Some s →
  clock w < expires s →
  refreshSession svc this w =
    let '(username, domain) := Js.destructure2 (Js.split "@" (inbox_address this)) in
    let '(lat, r) := post_session svc (trace w) (inbox_server this) username domain in
    let w1 := advance (Z.of_N lat)
                (record_event (EvCall (PostSession (inbox_server this) username domain)) w) in
    match r with
    | inr e => (Return tt, with_sessionStore (<[l := set_expires e s]> (sessionStore w)) w1)
    | inl f => (Throw (handleApiError f "POST /session"), w1)
    end.
Proof.
  intros Hs Hl Hvalid. unfold refreshSession. rewrite Hs.
  unfold bind at 1, read_session. rewrite Hl.
  unfold bind at 1, Date_now. unfold isValid.
  destruct (Z.ltb_spec (clock w) (expires s)) as [_|?]; [|lia]. cbn [negb].
  destruct (Js.destructure2 _) as [username domain].
  unfold bind, createSession, request, send, settle.
  destruct (post_session svc _ _ _ _) as [lat [f|e]]; [done|].
  unfold modify, with_sessionStore, advance, record_event. cbn.
  by rewrite (alter_present _ _ s).
Qed.

(** What a refresh does to the Session objects, whatever its outcome: it
    leaves them alone, or it has succeeded and has put the expiry that the
    service granted into the Session of the inbox. *)
Lemma refreshSession_store (this : Inbox) (w : World) :
  sessionStore (refreshSession svc this w).2 = sessionStore w
  ∨ ∃ l s lat e,
      inbox_session this = Some l
      ∧ sessionStore w !! l = Some s
      ∧ clock w < expires s
      ∧ post_session svc (trace w) (inbox_server this)
          (Js.destructure2 (Js.split "@" (inbox_address this))).1
          (Js.destructure2 (Js.split "@" (inbox_address this))).2 = (lat, inr e)
      ∧ (refreshSession svc this w).1 = Return tt
      ∧ sessionStore (refreshSession svc this w).2 = <[l := set_expires e s]> (sessionStore w).
Proof.
  destruct (inbox_session this) as [l|] eqn:Hs.
  2:{ left. unfold refreshSession. by rewrite Hs. }
  destruct (sessionStore w !! l) as [s|] eqn:Hl.
  2:{ left. unfold refreshSession, bind, read_session. by rewrite Hs, Hl. }
  destruct (Z.lt_ge_cases (clock w) (expires s)) as [Hvalid|Hexp].
  2:{ left. by rewrite (refreshSession_expired_run svc this l s w Hs Hl Hexp). }
  rewrite (refreshSession_valid_run this l s w Hs Hl Hvalid).
  destruct (Js.destructure2 _) as [username domain]. cbn [fst snd].
  destruct (post_session svc _ _ _ _) as [lat [f|e]] eqn:Hpost; [by left|].
  right. exists l, s, lat, e. done.
Qed.

End RefreshSessionRuns.

(** ** The inbox and the client share one Session object *)

Section SharedSession.
Variable svc : Service.

Lemma JsMap_get_set {V} (k : string) (v : V) (m : list (string * V)) :
  JsMap.get k (JsMap.set k v m) = Some v.
Proof.
  induction m as [|[k' v'] m IH]; cbn.
  - by rewrite String.eqb_refl.
  - destruct (String.eqb k k') eqn:E; cbn; rewrite E; [done|exact IH].
Qed.

(** [createInbox] on an address with a user name and a domain. *)
Lemma createInbox_run (addr : string) (options : option InboxOptions)
    (c : TacomailClient) (w : World) (u d : string) :
  Js.destructure2 (Js.split "@" addr) = (Some u, Some d) → u ≠ "" → d ≠ "" →
  createInbox svc addr options (c, w) =
    let '(lat, r) := post_session svc (trace w) (client_server c) (Some u) (Some d) in
    let w1 := advance (Z.of_N lat)
                (record_event (EvCall (PostSession (client_server c) (Some u) (Some d))) w) in
    match r with
    | inl f => (Throw (handleApiError f "POST /session"), (c, w1))
    | inr e =>
        let l := fresh (dom (sessionStore w)) in
        let w2 := with_sessionStore
                    (<[l := mkSession addr e (client_server c)]> (sessionStore w)) w1 in
        let c' := with_sessions (JsMap.set addr l (sessions c)) c in
        let inbox := new_Inbox addr (client_server c) (Some l) in
        match options ≫= refreshInterval with
        | Some interval =>
            if negb (interval =? 0)
            then (Return (enableAutoRefresh interval inbox w2).1,
                  (c', (enableAutoRefresh interval inbox w2).2))
            else (Return inbox, (c', w2))
        | None => (Return inbox, (c', w2))
        end
    end.
Proof.
  intros Hsplit Hu Hd. unfold createInbox. rewrite Hsplit.
  assert (Js.truthy (Some u) = true) as ->.
  { cbn. by destruct (String.eqb_spec u ""). }
  assert (Js.truthy (Some d) = true) as ->.
  { cbn. by destruct (String.eqb_spec d ""). }
  cbn [negb orb].
  unfold bind, this_client, liftW, createSession, request, send, settle.
  destruct (post_session svc _ _ _ _) as [lat [f|e]]; [done|].
  cbn. destruct (options ≫= refreshInterval) as [interval|]; [|done].
  destruct (negb _); done.
Qed.

Lemma enableAutoRefresh_inbox interval this w :
  inbox_address (enableAutoRefresh interval this w).1 = inbox_address this
  ∧ inbox_server (enableAutoRefresh interval this w).1 = inbox_server this
  ∧ inbox_session (enableAutoRefresh interval this w).1 = inbox_session this.
Proof. unfold enableAutoRefresh. by destruct (refreshTimer this). Qed.




End SharedSession.

Section RefreshRuns.
Import Scenario.

Lemma refreshSession_expired_witness :
  refreshSession steady (inbox1 steady) (advance 4000 (world1 steady))
    = (Throw (SessionExpiredError addr), advance 4000 (world1 steady))
  ∧ message (SessionExpiredError addr) = "Session for abc@example.com has expired"
  ∧ err_name (SessionExpiredError addr) = "SessionExpiredError".
Proof.
  apply (refreshSession_expired steady (inbox1 steady) 1%positive
           (mkSession addr 5000 srv) (advance 4000 (world1 steady))).
  - reflexivity.
  - vm_compute. reflexivity.
  - vm_compute. discriminate.
Defined.

Lemma refreshSession_no_session_witness :
  refreshSession steady inbox0 world0 = (Throw NoSessionError, world0).
Proof.
  apply (refreshSession_no_session steady inbox0 world0). reflexivity.
Defined.


Example refreshSession_in_place_value :
  registered_session (client1 growing)
    (refreshSession growing (inbox1 growing) (world1 growing)).2 addr
  = Some (mkSession addr 9000 srv).
Proof. vm_compute. reflexivity. Qed.

(** A refresh can move [expires] backwards: the service grants 5000 first
    and 1500 on the refresh, and the Session then expires at 1500. *)
Lemma refreshSession_expires_decreases :
  ¬ (∀ (svc : Service) (this : Inbox) (l : loc) (s : Session) (w w' : World),
       inbox_session this = Some l →
       sessionStore w !! l = Some s →
       refreshSession svc this w = (Return tt, w') →
       ∃ s', sessionStore w' !! l = Some s' ∧ expires s ≤ expires s').
Proof.
  intros H.
  destruct (H shrinking (inbox1 shrinking) 1%positive (mkSession addr 5000 srv)
              (world1 shrinking)
              (refreshSession shrinking (inbox1 shrinking) (world1 shrinking)).2)
    as (s' & Hs' & Hle).
  - reflexivity.
  - vm_compute. reflexivity.
  - vm_compute. reflexivity.
  - vm_compute in Hs'. injection Hs' as <-. cbn in Hle. lia.
Qed.

End RefreshRuns.

(** ** The domain cache *)

Section DomainCache.
Variable svc : Service.

(** With the cache filled, [getDomains] sends nothing and hands out a new
    array with the cached content. *)
Lemma getDomains_cached (c : TacomailClient) (w : World) (l : loc) (ds : list string) :
  domainsCache c = Some l →
  arrayStore w !! l = Some ds →
  getDomains svc (c, w) =
    (Return (fresh (dom (arrayStore w))),
     (c, with_arrayStore (<[fresh (dom (arrayStore w)) := ds]> (arrayStore w)) w)).
Proof.
  intros Hc Hl. unfold getDomains, bind, this_client. rewrite Hc.
  unfold ret, liftW, read_array. rewrite Hl. reflexivity.
Qed.

(** The first call fetches the list, stores the array in the cache, and
    hands out a copy. *)
Lemma getDomains_first (c : TacomailClient) (w : World) (lat : N) (ds : list string) :
  domainsCache c = None →
  get_domains svc (trace w) (client_server c) = (lat, inr ds) →
  ∃ l l' w',
    getDomains svc (c, w) = (Return l', (with_domainsCache l c, w'))
    ∧ l ≠ l'
    ∧ trace w' = trace w ++ [EvCall (GetDomains (client_server c))]
    ∧ arrayStore w' !! l = Some ds
    ∧ arrayStore w' !! l' = Some ds.
Proof.
  intros Hc Hget.
  set (l := fresh (dom (arrayStore w))).
  set (l' := fresh (dom (<[l := ds]> (arrayStore w)))).
  assert (Hne : l ≠ l').
  { intros Heq. pose proof (is_fresh (dom (<[l := ds]> (arrayStore w)))) as Hf.
    fold l' in Hf. rewrite <- Heq in Hf. apply Hf. rewrite dom_insert_L. set_solver. }
  exists l, l'. eexists. split; [|split; [exact Hne|]].
  - unfold getDomains, bind, this_client. rewrite Hc.
    unfold liftW, getAvailableDomains, bind, request, send, settle. rewrite Hget.
    cbn. fold l. unfold read_array. cbn. rewrite lookup_insert_eq. cbn. fold l'.
    reflexivity.
  - cbn. split; [done|]. split.
    + by rewrite lookup_insert_ne, lookup_insert_eq.
    + by rewrite lookup_insert_eq.
Qed.

(** A caller that changes the array it got leaves the cache as it is. *)
Lemma getDomains_then_cached (f : list string → list string)
    (c : TacomailClient) (w : World) (ds : list string) :
  cache_holds c w ds →
  ∃ w', getDomains_then svc f (c, w) = (Return ds, (c, w'))
        ∧ trace w' = trace w
        ∧ cache_holds c w' ds.
Proof.
  intros (l & Hc & Hl).
  unfold getDomains_then, bind. rewrite (getDomains_cached c w l ds Hc Hl).
  set (l' := fresh (dom (arrayStore w))).
  assert (Hne : l' ≠ l).
  { intros Heq. apply (is_fresh (dom (arrayStore w))). fold l'. rewrite Heq.
    apply elem_of_dom. eauto. }
  unfold liftW, read_array. cbn. rewrite lookup_insert_eq. cbn.
  eexists. split; [reflexivity|]. split; [done|].
  exists l. split; [done|]. cbn. by rewrite !lookup_insert_ne.
Qed.

Lemma getDomains_repeatedly_cached (fs : list (list string → list string))
    (c : TacomailClient) (w : World) (ds : list string) :
  cache_holds c w ds →
  ∃ w', getDomains_repeatedly svc fs (c, w) = (Return (replicate (length fs) ds), (c, w'))
        ∧ trace w' = trace w
        ∧ cache_holds c w' ds.
Proof.
  revert w. induction fs as [|f fs IH]; intros w Hcache.
  - exists w. done.
  - destruct (getDomains_then_cached f c w ds Hcache) as (w1 & Hrun1 & Htr1 & Hcache1).
    destruct (IH w1 Hcache1) as (w2 & Hrun2 & Htr2 & Hcache2).
    exists w2. cbn [getDomains_repeatedly]. unfold bind. rewrite Hrun1, Hrun2.
    split; [done|]. split; [congruence|done].
Qed.

(** C7 (as the code has it): on a client whose first [getDomains] is
    answered with the list [ds], any number of calls made one after the
    other, each returned before the next is made and each followed by an
    arbitrary change to the array it returned, sends the domain request
    once, and every call returns an array with the content [ds]; the cache
    still holds [ds] afterwards. *)
Theorem getDomains_fetches_once
    (c : TacomailClient) (w : World) (lat : N) (ds : list string)
    (f : list string → list string) (fs : list (list string → list string)) :
  domainsCache c = None →
  get_domains svc (trace w) (client_server c) = (lat, inr ds) →
  ∃ c' w',
    getDomains_repeatedly svc (f :: fs) (c, w)
      = (Return (replicate (S (length fs)) ds), (c', w'))
    ∧ new_events w w' = [EvCall (GetDomains (client_server c))]
    ∧ count is_domains_call (new_events w w') = 1%nat
    ∧ cache_holds c' w' ds.
Proof.
  intros Hc Hget.
  destruct (getDomains_first c w lat ds Hc Hget) as (l & l' & w1 & Hrun & Hne & Htr & Hl & Hl').
  set (w2 := with_arrayStore (<[l' := f ds]> (arrayStore w1)) w1).
  assert (Hcache : cache_holds (with_domainsCache l c) w2 ds).
  { exists l. split; [done|]. cbn. by rewrite lookup_insert_ne. }
  destruct (getDomains_repeatedly_cached fs _ w2 ds Hcache) as (w3 & Hrun3 & Htr3 & Hcache3).
  exists (with_domainsCache l c), w3.
  assert (Hnew : new_events w w3 = [EvCall (GetDomains (client_server c))]).
  { unfold new_events. rewrite Htr3. cbn. rewrite Htr. apply drop_app_length. }
  rewrite Hnew. repeat split; try done.
  cbn [getDomains_repeatedly]. unfold bind at 1.
  unfold getDomains_then, bind at 1. rewrite Hrun.
  unfold bind at 1, liftW at 1, read_array. rewrite Hl'.
  unfold bind at 1, liftW, write_array, modify. fold w2. unfold ret at 1.
  unfold bind. rewrite Hrun3. reflexivity.
Qed.

End DomainCache.

(** ** Deleting all sessions *)

Section DeleteAllSessions.
Variable svc : Service.

Lemma JsMap_get_key {V} (a : string) (m : list (string * V)) :
  a ∈ JsMap.keys m → is_Some (JsMap.get a m).
Proof.
  induction m as [|[k v] m IH]; cbn.
  - intros H. by apply elem_of_nil in H.
  - intros [->|H]%elem_of_cons.
    + rewrite String.eqb_refl. eauto.
    + destruct (String.eqb a k); eauto.
Qed.

(** Sending the deletions for registered addresses: one request each, in
    order, each answered from the history that includes the ones before. *)
Lemma dispatch_all_spec (c : TacomailClient) (addrs : list string) (w : World) :
  (∀ a, a ∈ addrs → is_Some (JsMap.get a (sessions c))) →
  trace (dispatch_all svc c addrs w).2 = trace w ++ map (delete_call c) addrs
  ∧ clock (dispatch_all svc c addrs w).2 = clock w
  ∧ length (dispatch_all svc c addrs w).1 = length addrs
  ∧ ∀ i a, addrs !! i = Some a →
      ∃ p, (dispatch_all svc c addrs w).1 !! i = Some p
           ∧ pending_address p = a
           ∧ (pending_latency p, pending_result p)
             = delete_session svc (trace w ++ take i (map (delete_call c) addrs))
                 (client_server c)
                 (Js.destructure2 (Js.split "@" a)).1 (Js.destructure2 (Js.split "@" a)).2.
Proof.
  revert w. induction addrs as [|a addrs IH]; intros w Hreg.
  - cbn. rewrite app_nil_r. repeat split; try done.
  - cbn [dispatch_all]. unfold dispatch_delete.
    destruct (Hreg a) as [l Hl]; [constructor|]. rewrite Hl.
    destruct (Js.destructure2 (Js.split "@" a)) as [u d] eqn:Hsplit.
    assert (Hcall : delete_call c a = EvCall (DeleteSession (client_server c) u d)).
    { unfold delete_call. by rewrite Hsplit. }
    unfold send.
    destruct (delete_session svc (trace w) (client_server c) u d) as [lat r] eqn:Hans.
    specialize (IH (record_event (EvCall (DeleteSession (client_server c) u d)) w)).
    destruct IH as (Htr & Hclock & Hlen & Hps); [intros; apply Hreg; by constructor|].
    destruct (dispatch_all svc c addrs _) as [ps w2]. cbn [fst snd] in *.
    split; [|split; [|split]].
    + rewrite Htr. cbn. rewrite Hcall. by rewrite <- app_assoc.
    + exact Hclock.
    + cbn. by rewrite Hlen.
    + intros [|i] a' Hi.
      * injection Hi as <-. eexists. split; [reflexivity|].
        rewrite Hsplit. cbn. by rewrite app_nil_r, Hans.
      * destruct (Hps i a' Hi) as (p & Hp & Ha & Hans').
        exists p. split; [exact Hp|]. split; [exact Ha|].
        rewrite Hans'. cbn. rewrite Hcall. by rewrite <- app_assoc.
Qed.

Lemma earliest_failure_some (ps : list Pending) (p : Pending) (f : Failure) :
  p ∈ ps → pending_result p = inl f → is_Some (earliest_failure ps).
Proof.
  induction ps as [|q ps IH]; [intros H; by apply elem_of_nil in H|].
  intros [->|Hin]%elem_of_cons Hf; cbn.
  - rewrite Hf. destruct (earliest_failure ps) as [[lat' f']|]; [|eauto].
    destruct (_ <=? _)%N; eauto.
  - destruct (IH Hin Hf) as [[lat' f'] Hsome]. rewrite Hsome.
    destruct (pending_result q); [|eauto]. destruct (_ <=? _)%N; eauto.
Qed.

Lemma earliest_failure_none (ps : list Pending) :
  Forall (λ p, ∃ u, pending_result p = inr u) ps → earliest_failure ps = None.
Proof.
  induction 1 as [|p ps [u Hu] _ IH]; [done|]. cbn. by rewrite Hu.
Qed.

Lemma deleteAllSessions_run (c : TacomailClient) (w : World) :
  deleteAllSessions svc (c, w) =
    let ps := (dispatch_all svc c (JsMap.keys (sessions c)) w).1 in
    let w1 := advance (Z.of_N (latest ps)) (dispatch_all svc c (JsMap.keys (sessions c)) w).2 in
    match earliest_failure ps with
    | Some (_, f) =>
        (Throw (handleApiError f "DELETE /session"),
         (with_sessions (remove_settled ps (sessions c)) c, w1))
    | None => (Return tt, (with_sessions [] c, w1))
    end.
Proof.
  unfold deleteAllSessions, bind, this_client.
  destruct (dispatch_all svc c _ w) as [ps w1]. cbn.
  by destruct (earliest_failure ps) as [[lat f]|].
Qed.

(** With one registered session the joint deletion is the deletion of
    that session: same outcome, same world, and the map is empty when it
    succeeded. *)
Lemma deleteAllSessions_single (c : TacomailClient) (w : World) (a : string) (l : loc) :
  sessions c = [(a, l)] →
  (deleteAllSessions svc (c, w)).1 = (deleteSessionForInbox svc a (c, w)).1
  ∧ (deleteAllSessions svc (c, w)).2.2 = (deleteSessionForInbox svc a (c, w)).2.2
  ∧ sessions (deleteAllSessions svc (c, w)).2.1
    = sessions (deleteSessionForInbox svc a (c, w)).2.1.
Proof.
  intros Hc. rewrite deleteAllSessions_run.
  unfold deleteSessionForInbox, bind, this_client. rewrite Hc.
  cbn [JsMap.keys map fst dispatch_all]. unfold dispatch_delete.
  rewrite Hc. cbn [JsMap.get]. rewrite String.eqb_refl.
  destruct (Js.destructure2 _) as [u d].
  unfold liftW, deleteSession, request, send, settle.
  destruct (delete_session svc _ _ _ _) as [lat [f|[]]]; cbn.
  - rewrite N.max_0_r. done.
  - rewrite N.max_0_r, Hc. cbn. by rewrite String.eqb_refl.
Qed.

(** C8: [deleteAllSessions] sends the deletion for every registered
    address, one request each, whatever the service answers to the others;
    when the service fails one of them the call as a whole fails, and when
    it fails none the call returns and the map is empty. *)
Theorem deleteAllSessions_attempts_all (c : TacomailClient) (w : World) :
  new_events w (deleteAllSessions svc (c, w)).2.2 = delete_calls c
  ∧ (∀ i a lat f,
       JsMap.keys (sessions c) !! i = Some a →
       delete_answer svc c w i a = (lat, inl f) →
       ∃ e, (deleteAllSessions svc (c, w)).1 = Throw e)
  ∧ ((∀ i a, JsMap.keys (sessions c) !! i = Some a →
             ∃ lat u, delete_answer svc c w i a = (lat, inr u)) →
     (deleteAllSessions svc (c, w)).1 = Return tt
     ∧ sessions (deleteAllSessions svc (c, w)).2.1 = []).
Proof.
  rewrite deleteAllSessions_run.
  destruct (dispatch_all_spec c (JsMap.keys (sessions c)) w) as (Htr & _ & Hlenps & Hps).
  { intros a. apply JsMap_get_key. }
  destruct (dispatch_all svc c _ w) as [ps w1]. cbn [fst snd] in *. cbn zeta.
  split; [|split].
  - unfold new_events, delete_calls.
    destruct (earliest_failure ps) as [[lat f]|]; cbn; rewrite Htr; apply drop_app_length.
  - intros i a lat f Hi Hans.
    destruct (Hps i a Hi) as (p & Hp & _ & Hp').
    unfold delete_answer, delete_calls in Hans. rewrite Hans in Hp'.
    injection Hp' as _ Hres.
    destruct (earliest_failure_some ps p f) as [[lat' f'] Hsome];
      [by eapply list_elem_of_lookup_2|done|].
    rewrite Hsome. eauto.
  - intros Hall.
    rewrite earliest_failure_none; [done|].
    apply Forall_lookup. intros i p Hp.
    assert (Hlen : (i < length (JsMap.keys (sessions c)))%nat).
    { rewrite <- Hlenps. by eapply lookup_lt_Some. }
    apply lookup_lt_is_Some_2 in Hlen as [a Ha].
    destruct (Hps i a Ha) as (p' & Hp'' & _ & Hans). rewrite Hp in Hp''. injection Hp'' as <-.
    destruct (Hall i a Ha) as (lat & u & Hok).
    unfold delete_answer, delete_calls in Hok. rewrite Hok in Hans.
    injection Hans as _ ->. eauto.
Qed.

End DeleteAllSessions.

(** ** Addresses with more than one at-sign *)

Section CreateInbox.
Variable svc : Service.

Lemma split_first (sep : ascii) (u rest : string) :
  Js.includes sep u = false →
  Js.split sep (u +:+ String sep rest) = u :: Js.split sep rest.
Proof.
  induction u as [|a u IH]; cbn -[Ascii.eqb].
  - intros _. change ("" +:+ String sep rest) with (String sep rest).
    cbn -[Ascii.eqb]. by rewrite Ascii.eqb_refl.
  - intros [Ha Hu]%orb_false_elim.
    change (String a u +:+ String sep rest) with (String a (u +:+ String sep rest)).
    cbn -[Ascii.eqb]. rewrite Ha, (IH Hu). reflexivity.
Qed.

Lemma split_cons (sep : ascii) (s : string) : ∃ x xs, Js.split sep s = x :: xs.
Proof.
  induction s as [|a s (x & xs & IH)]; cbn -[Ascii.eqb]; [eauto|].
  destruct (Ascii.eqb a sep); [eauto|]. rewrite IH. eauto.
Qed.

(** The address [u@d@rest] splits into [u], [d] and what [rest] splits
    into; the destructuring keeps [u] and [d]. *)
Lemma split_two_ats (u d rest : string) :
  Js.includes "@" u = false → Js.includes "@" d = false →
  Js.destructure2 (Js.split "@" (u +:+ "@" +:+ d +:+ "@" +:+ rest)) = (Some u, Some d)
  ∧ (2 < length (Js.split "@" (u +:+ "@" +:+ d +:+ "@" +:+ rest)))%nat.
Proof.
  intros Hu Hd.
  change (u +:+ "@" +:+ d +:+ "@" +:+ rest)
    with (u +:+ String "@" (d +:+ String "@" rest)).
  rewrite (split_first _ u _ Hu), (split_first _ d _ Hd).
  destruct (split_cons "@" rest) as (x & xs & ->).
  split; [reflexivity|cbn; lia].
Qed.

(** C9: for an address [u@d@rest] with non-empty [u] and [d],
    [createInbox] does not raise the invalid-address error; it asks the
    service for a session of user [u] at domain [d], and when that is
    granted the registered Session and the returned Inbox carry the whole
    address. *)
Theorem createInbox_extra_at_signs
    (u d rest : string) (options : option InboxOptions) (c : TacomailClient) (w : World) :
  u ≠ "" → d ≠ "" →
  Js.includes "@" u = false → Js.includes "@" d = false →
  let addr := u +:+ "@" +:+ d +:+ "@" +:+ rest in
  (createInbox svc addr options (c, w)).1 ≠ Throw InvalidAddressError
  ∧ new_events w (createInbox svc addr options (c, w)).2.2
      = [EvCall (PostSession (client_server c) (Some u) (Some d))]
  ∧ ∀ lat e,
      post_session svc (trace w) (client_server c) (Some u) (Some d) = (lat, inr e) →
      ∃ inbox l,
        (createInbox svc addr options (c, w)).1 = Return inbox
        ∧ inbox_address inbox = addr
        ∧ inbox_session inbox = Some l
        ∧ JsMap.get addr (sessions (createInbox svc addr options (c, w)).2.1) = Some l
        ∧ sessionStore (createInbox svc addr options (c, w)).2.2 !! l
            = Some (mkSession addr e (client_server c)).
Proof.
  intros Hu Hd Hu' Hd' addr.
  destruct (split_two_ats u d rest Hu' Hd') as [Hsplit _].
  rewrite (createInbox_run svc addr options c w u d Hsplit Hu Hd).
  destruct (post_session svc _ _ _ _) as [lat [f|e]]; cbn zeta.
  - repeat split.
    + cbn. intros [= Heq]. by apply (local_error_not_service InvalidAddressError f "POST /session").
    + unfold new_events. cbn. apply drop_app_length.
    + intros ?? [=].
  - assert (Hfresh : sessionStore w !! fresh (dom (sessionStore w)) = None)
      by apply not_elem_of_dom, is_fresh.
    destruct (options ≫= refreshInterval) as [interval|]; [destruct (negb _)|].
    all: repeat split; [done|unfold new_events; cbn; apply drop_app_length|].
    all: intros lat' e' [= _ <-]; eexists _, _; cbn.
    all: repeat split; [apply JsMap_get_set|by rewrite lookup_insert_eq].
Qed.

End CreateInbox.

(** ** Concrete runs of the client *)

Section ClientRuns.
Import Scenario.

Lemma getDomains_fetches_once_witness :
  ∃ c' w',
    getDomains_repeatedly steady [(λ xs, "evil.example" :: xs); (λ _, []); (λ xs, xs)]
      (client0, world0)
      = (Return (replicate 3 ["example.com"; "tacomail.de"]), (c', w'))
    ∧ new_events world0 w' = [EvCall (GetDomains srv)]
    ∧ count is_domains_call (new_events world0 w') = 1%nat
    ∧ cache_holds c' w' ["example.com"; "tacomail.de"].
Proof.
  apply (getDomains_fetches_once steady client0 world0 0%N ["example.com"; "tacomail.de"]
           (λ xs, "evil.example" :: xs) [(λ _, []); (λ xs, xs)]).
  - reflexivity.
  - reflexivity.
Defined.

(** Three registered sessions, the deletion of the second one fails: all
    three requests are sent and the call fails. *)
Lemma deleteAllSessions_attempts_all_witness :
  new_events world3 (deleteAllSessions failing_b (client3, world3)).2.2
    = [EvCall (DeleteSession srv (Some "a") (Some "x.org"));
       EvCall (DeleteSession srv (Some "b") (Some "x.org"));
       EvCall (DeleteSession srv (Some "c") (Some "x.org"))]
  ∧ ∃ e, (deleteAllSessions failing_b (client3, world3)).1 = Throw e.
Proof.
  destruct (deleteAllSessions_attempts_all failing_b client3 world3) as (Hcalls & Hfail & _).
  split; [exact Hcalls|].
  apply (Hfail 1%nat "b@x.org" 0%N
           (AxiosFailure (mkAxiosError (Some 500) None None "Request failed"))).
  - reflexivity.
  - reflexivity.
Defined.

Example deleteAllSessions_second_fails :
  (deleteAllSessions failing_b (client3, world3)).1
    = Throw (new_TacomailError "Request failed" (Some 500) (Some "DELETE /session"))
  ∧ sessions (deleteAllSessions failing_b (client3, world3)).2.1 = [("b@x.org", 2%positive)].
Proof. split; reflexivity. Qed.

Lemma createInbox_extra_at_signs_witness :
  (createInbox steady "a@b@c" None (client0, world0)).1 ≠ Throw InvalidAddressError
  ∧ new_events world0 (createInbox steady "a@b@c" None (client0, world0)).2.2
      = [EvCall (PostSession srv (Some "a") (Some "b"))]
  ∧ ∃ inbox l,
      (createInbox steady "a@b@c" None (client0, world0)).1 = Return inbox
      ∧ inbox_address inbox = "a@b@c"
      ∧ inbox_session inbox = Some l
      ∧ JsMap.get "a@b@c" (sessions (createInbox steady "a@b@c" None (client0, world0)).2.1)
          = Some l
      ∧ sessionStore (createInbox steady "a@b@c" None (client0, world0)).2.2 !! l
          = Some (mkSession "a@b@c" 5000 srv).
Proof.
  destruct (createInbox_extra_at_signs steady "a" "b" "c" None client0 world0)
    as (Hnot & Hcall & Hok); [discriminate|discriminate|reflexivity|reflexivity|].
  split; [exact Hnot|]. split; [exact Hcall|].
  exact (Hok 0%N 5000 eq_refl).
Defined.

End ClientRuns.

(** * Further properties of the code *)

(** ** The session map *)

Section JsMapFacts.
Context {V : Type}.
Implicit Types (m : list (string * V)) (k : string) (v : V).

Lemma JsMap_get_set_ne k k' v m :
  k ≠ k' → JsMap.get k' (JsMap.set k v m) = JsMap.get k' m.
Proof.
  intros Hne. induction m as [|[k0 v0] m IH]; cbn.
  - destruct (String.eqb_spec k' k); [congruence|done].
  - destruct (String.eqb_spec k k0) as [->|Hk]; cbn.
    + destruct (String.eqb_spec k' k0); [congruence|done].
    + destruct (String.eqb_spec k' k0); [done|exact IH].
Qed.

Lemma JsMap_get_None k m : JsMap.get k m = None ↔ k ∉ JsMap.keys m.
Proof.
  induction m as [|[k0 v0] m IH]; cbn.
  - split; [intros _; apply not_elem_of_nil|done].
  - rewrite not_elem_of_cons. destruct (String.eqb_spec k k0) as [->|Hk].
    + split; [done|]. intros [? _]. done.
    + rewrite IH. tauto.
Qed.

Lemma JsMap_keys_set k v m :
  JsMap.keys (JsMap.set k v m)
  = match JsMap.get k m with
    | Some _ => JsMap.keys m
    | None => JsMap.keys m ++ [k]
    end.
Proof.
  unfold JsMap.keys. induction m as [|[k0 v0] m IH]; cbn; [done|].
  destruct (String.eqb_spec k k0) as [->|Hk]; cbn; [done|].
  rewrite IH. by destruct (JsMap.get k m).
Qed.

Lemma JsMap_unique_set k v m :
  NoDup (JsMap.keys m) → NoDup (JsMap.keys (JsMap.set k v m)).
Proof.
  intros Hm. rewrite JsMap_keys_set.
  destruct (JsMap.get k m) eqn:Hget; [done|].
  apply NoDup_app. split; [done|]. split; [|apply NoDup_singleton].
  intros x Hx ->%list_elem_of_singleton. by apply JsMap_get_None in Hget.
Qed.

Lemma JsMap_keys_delete k m x :
  x ∈ JsMap.keys (JsMap.delete k m) → x ∈ JsMap.keys m.
Proof.
  induction m as [|[k0 v0] m IH]; cbn; [done|].
  destruct (String.eqb_spec k k0) as [->|Hk]; cbn.
  - intros. by right.
  - intros [->|H]%elem_of_cons; [by left|right; auto].
Qed.

Lemma JsMap_unique_delete k m :
  NoDup (JsMap.keys m) → NoDup (JsMap.keys (JsMap.delete k m)).
Proof.
  induction m as [|[k0 v0] m IH]; cbn; [done|].
  intros [Hk0 Hm]%NoDup_cons.
  destruct (String.eqb_spec k k0) as [->|Hk]; cbn; [done|].
  apply NoDup_cons. split; [|auto].
  intros Hin. by apply Hk0, (JsMap_keys_delete k).
Qed.

Lemma JsMap_get_delete_ne k k' m :
  k ≠ k' → JsMap.get k' (JsMap.delete k m) = JsMap.get k' m.
Proof.
  intros Hne. induction m as [|[k0 v0] m IH]; cbn; [done|].
  destruct (String.eqb_spec k k0) as [->|Hk]; cbn.
  - destruct (String.eqb_spec k' k0); [congruence|done].
  - destruct (String.eqb_spec k' k0); [done|exact IH].
Qed.

Lemma JsMap_get_delete k m :
  NoDup (JsMap.keys m) → JsMap.get k (JsMap.delete k m) = None.
Proof.
  induction m as [|[k0 v0] m IH]; cbn; [done|].
  intros [Hk0 Hm]%NoDup_cons.
  destruct (String.eqb_spec k k0) as [->|Hk]; cbn.
  - by apply JsMap_get_None.
  - destruct (String.eqb_spec k k0); [done|auto].
Qed.

End JsMapFacts.

(** ** Creating an inbox: addresses, failures, the registry *)

Section CreateInboxEdges.
Variable svc : Service.

Lemma split_no_sep (sep : ascii) (s : string) :
  Js.includes sep s = false → Js.split sep s = [s].
Proof.
  induction s as [|a s IH]; cbn -[Ascii.eqb]; [done|].
  intros [Ha Hs]%orb_false_elim. by rewrite Ha, (IH Hs).
Qed.

Lemma split_leading (sep : ascii) (rest : string) :
  Js.split sep (String sep rest) = "" :: Js.split sep rest.
Proof. cbn -[Ascii.eqb]. by rewrite Ascii.eqb_refl. Qed.

(** A plain address [u@d] splits into its two parts. *)
Lemma split_plain_address (u d : string) :
  Js.includes "@" u = false → Js.includes "@" d = false →
  Js.destructure2 (Js.split "@" (u +:+ "@" +:+ d)) = (Some u, Some d).
Proof.
  intros Hu Hd. change (u +:+ "@" +:+ d) with (u +:+ String "@" d).
  by rewrite (split_first _ u _ Hu), (split_no_sep _ d Hd).
Qed.

Lemma createInbox_falsy_part (addr : string) options c w :
  Js.truthy (Js.split "@" addr !! 0%nat) && Js.truthy (Js.split "@" addr !! 1%nat) = false →
  createInbox svc addr options (c, w) = (Throw InvalidAddressError, (c, w)).
Proof.
  intros H. unfold createInbox, Js.destructure2.
  apply andb_false_iff in H as [-> | ->]; [done|].
  by rewrite orb_true_r.
Qed.

(** An address without an at-sign, with nothing before the first at-sign,
    or with nothing between the first at-sign and the end or the next
    at-sign is rejected before anything happens: no request, no Session,
    no entry in the map. *)
Theorem createInbox_invalid_address
    (addr : string) (options : option InboxOptions) (c : TacomailClient) (w : World) :
  Js.includes "@" addr = false
  ∨ (∃ rest, addr = "@" +:+ rest)
  ∨ (∃ u rest, Js.includes "@" u = false
               ∧ (addr = u +:+ "@" ∨ addr = u +:+ "@@" +:+ rest)) →
  createInbox svc addr options (c, w) = (Throw InvalidAddressError, (c, w)).
Proof.
  intros [Hno|[(rest & ->)|(u & rest & Hu & [-> | ->])]];
    apply createInbox_falsy_part.
  - rewrite (split_no_sep _ _ Hno). cbn. apply andb_false_r.
  - change ("@" +:+ rest) with (String "@" rest).
    by rewrite split_leading.
  - change (u +:+ "@") with (u +:+ String "@" "").
    rewrite (split_first _ u _ Hu). cbn. apply andb_false_r.
  - change (u +:+ "@@" +:+ rest) with (u +:+ String "@" (String "@" rest)).
    rewrite (split_first _ u _ Hu), split_leading. cbn.
    apply andb_false_r.
Qed.

(** What a successful [createInbox] has done. *)
Lemma createInbox_success_inv (addr : string) options c w inbox c' w' :
  createInbox svc addr options (c, w) = (Return inbox, (c', w')) →
  ∃ u d lat e,
    Js.destructure2 (Js.split "@" addr) = (Some u, Some d) ∧ u ≠ "" ∧ d ≠ ""
    ∧ post_session svc (trace w) (client_server c) (Some u) (Some d) = (lat, inr e)
    ∧ c' = with_sessions (JsMap.set addr (fresh (dom (sessionStore w))) (sessions c)) c
    ∧ inbox_address inbox = addr
    ∧ inbox_server inbox = client_server c
    ∧ inbox_session inbox = Some (fresh (dom (sessionStore w)))
    ∧ sessionStore w'
      = <[fresh (dom (sessionStore w)) := mkSession addr e (client_server c)]> (sessionStore w)
    ∧ trace w' = trace w ++ [EvCall (PostSession (client_server c) (Some u) (Some d))]
    ∧ clock w' = clock w + Z.of_N lat.
Proof.
  destruct (Js.truthy (Js.split "@" addr !! 0%nat) && Js.truthy (Js.split "@" addr !! 1%nat))
    eqn:Hparts.
  2:{ rewrite (createInbox_falsy_part addr options c w Hparts). discriminate. }
  apply andb_true_iff in Hparts as [Hu Hd].
  destruct (Js.split "@" addr !! 0%nat) as [u|] eqn:Hu0; [|discriminate].
  destruct (Js.split "@" addr !! 1%nat) as [d|] eqn:Hd0; [|discriminate].
  assert (Hsplit : Js.destructure2 (Js.split "@" addr) = (Some u, Some d)).
  { unfold Js.destructure2. by rewrite Hu0, Hd0. }
  assert (Hu' : u ≠ "") by (intros ->; discriminate).
  assert (Hd' : d ≠ "") by (intros ->; discriminate).
  rewrite (createInbox_run svc addr options c w u d Hsplit Hu' Hd').
  destruct (post_session svc _ _ _ _) as [lat [f|e]] eqn:Hpost; [discriminate|].
  cbn zeta. intros Hrun. exists u, d, lat, e.
  destruct (options ≫= refreshInterval) as [interval|]; [destruct (negb _)|];
    injection Hrun as <- <- <-; repeat split; done.
Qed.

(** When the service refuses the session, [createInbox] fails with the
    error of the service, tagged with the session endpoint; the client is
    as before and no Session object has been made. *)
Theorem createInbox_service_failure
    (u d : string) (options : option InboxOptions) (c : TacomailClient) (w : World)
    (lat : N) (f : Failure) :
  u ≠ "" → d ≠ "" → Js.includes "@" u = false → Js.includes "@" d = false →
  post_session svc (trace w) (client_server c) (Some u) (Some d) = (lat, inl f) →
  ∃ w', createInbox svc (u +:+ "@" +:+ d) options (c, w)
          = (Throw (handleApiError f "POST /session"), (c, w'))
        ∧ endpoint (handleApiError f "POST /session") = Some "POST /session"
        ∧ sessionStore w' = sessionStore w
        ∧ timers w' = timers w
        ∧ new_events w w' = [EvCall (PostSession (client_server c) (Some u) (Some d))].
Proof.
  intros Hu Hd Hu' Hd' Hpost.
  rewrite (createInbox_run svc _ options c w u d (split_plain_address u d Hu' Hd') Hu Hd).
  rewrite Hpost. eexists. split; [reflexivity|]. repeat split.
  - destruct f as [ax| |]; cbn; done.
  - unfold new_events. cbn. apply drop_app_length.
Qed.

(** After [createInbox] the map of the client has the address once, at the
    place it had before or at the end; [getInbox] for the address hands
    out the Session of the returned Inbox, and for any other address what
    it handed out before. *)
Theorem createInbox_registry
    (addr : string) (options : option InboxOptions) (c c' : TacomailClient)
    (w w' : World) (inbox : Inbox) :
  createInbox svc addr options (c, w) = (Return inbox, (c', w')) →
  getInbox c' addr = new_Inbox addr (client_server c) (inbox_session inbox)
  ∧ (∀ b, b ≠ addr → getInbox c' b = getInbox c b)
  ∧ JsMap.keys (sessions c')
    = match JsMap.get addr (sessions c) with
      | Some _ => JsMap.keys (sessions c)
      | None => JsMap.keys (sessions c) ++ [addr]
      end
  ∧ (unique_keys c → unique_keys c')
  ∧ domainsCache c' = domainsCache c.
Proof.
  intros Hrun.
  destruct (createInbox_success_inv addr options c w inbox c' w' Hrun)
    as (u & d & lat & e & _ & _ & _ & _ & -> & _ & _ & Hsess & _).
  unfold getInbox, unique_keys. cbn. rewrite Hsess, JsMap_get_set.
  repeat split.
  - intros b Hb. by rewrite JsMap_get_set_ne.
  - apply JsMap_keys_set.
  - apply JsMap_unique_set.
Qed.

(** Right after [createInbox], and at any later time while the Session is
    as it was made, the registered Session carries the address and the
    expiry the service granted for the two parts of the address, and
    [hasActiveSession] is true exactly until that expiry. *)
Theorem createInbox_then_hasActiveSession
    (addr : string) (options : option InboxOptions) (c c' : TacomailClient)
    (w w' : World) (inbox : Inbox) (ms : Z) :
  createInbox svc addr options (c, w) = (Return inbox, (c', w')) →
  ∃ lat e,
    post_session svc (trace w) (client_server c)
      (Js.destructure2 (Js.split "@" addr)).1 (Js.destructure2 (Js.split "@" addr)).2
      = (lat, inr e)
    ∧ registered_session c' w' addr = Some (mkSession addr e (client_server c))
    ∧ hasActiveSession inbox (advance ms w') = (Return (clock w' + ms <? e), advance ms w')
    ∧ clock w' = clock w + Z.of_N lat.
Proof.
  intros Hrun.
  destruct (createInbox_success_inv addr options c w inbox c' w' Hrun)
    as (u & d & lat & e & Hsplit & _ & _ & Hpost & -> & _ & _ & Hsess & Hstore & _ & Hclock).
  exists lat, e. rewrite Hsplit. cbn [fst snd]. split; [exact Hpost|].
  unfold registered_session, hasActiveSession, bind, read_session. cbn.
  rewrite JsMap_get_set, Hsess. cbn. rewrite Hstore, lookup_insert_eq.
  done.
Qed.

End CreateInboxEdges.

(** ** Deleting sessions *)

Section DeleteSessions.
Variable svc : Service.

(** For an address the client has no session for, [deleteSessionForInbox]
    returns without a request and without a change. *)
Theorem deleteSessionForInbox_unregistered (addr : string) (c : TacomailClient) (w : World) :
  JsMap.get addr (sessions c) = None →
  deleteSessionForInbox svc addr (c, w) = (Return tt, (c, w)).
Proof.
  intros Hget. unfold deleteSessionForInbox, bind, this_client. by rewrite Hget.
Qed.

(** For a registered address one deletion request is sent.  When the
    service accepts it the address leaves the map, so that [getInbox]
    hands out an Inbox without a Session, and every other address keeps
    its Session; when the service refuses it the error is thrown and the
    map is as before.  The Session objects themselves are never touched. *)
Theorem deleteSessionForInbox_registered
    (addr : string) (l : loc) (c : TacomailClient) (w : World) :
  unique_keys c →
  JsMap.get addr (sessions c) = Some l →
  let run := deleteSessionForInbox svc addr (c, w) in
  new_events w run.2.2 = [delete_call c addr]
  ∧ sessionStore run.2.2 = sessionStore w
  ∧ (∀ lat u, delete_answer svc c w 0 addr = (lat, inr u) →
       run.1 = Return tt
       ∧ inbox_session (getInbox run.2.1 addr) = None
       ∧ (∀ b, b ≠ addr → getInbox run.2.1 b = getInbox c b)
       ∧ unique_keys run.2.1)
  ∧ (∀ lat f, delete_answer svc c w 0 addr = (lat, inl f) →
       run.1 = Throw (handleApiError f "DELETE /session")
       ∧ run.2.1 = c).
Proof.
  intros Huniq Hget run. subst run.
  unfold deleteSessionForInbox, bind, this_client. rewrite Hget.
  unfold delete_answer, delete_call, new_events. cbn [take]. rewrite app_nil_r.
  destruct (Js.destructure2 (Js.split "@" addr)) as [u d]. cbn [fst snd].
  unfold liftW, deleteSession, request, send, settle.
  destruct (delete_session svc (trace w) (client_server c) u d) as [lat [f|[]]]; cbn.
  - rewrite drop_app_length. repeat split; try done. congruence.
  - rewrite drop_app_length. repeat split; try done.
    + by apply JsMap_get_delete.
    + intros b Hb. unfold getInbox, with_sessions. cbn [sessions client_server].
      by rewrite JsMap_get_delete_ne.
    + by apply JsMap_unique_delete.
Qed.

(** The part of [remove_settled] that concerns one address. *)
Lemma get_remove_settled (ps : list Pending) (m : list (string * loc)) (a : string) :
  NoDup (JsMap.keys m) →
  NoDup (JsMap.keys (remove_settled ps m))
  ∧ JsMap.get a (remove_settled ps m)
    = if existsb (λ p, match pending_result p with
                       | inr _ => String.eqb (pending_address p) a
                       | inl _ => false
                       end) ps
      then None else JsMap.get a m.
Proof.
  revert m. induction ps as [|p ps IH]; intros m Hm; [done|].
  cbn [remove_settled foldl existsb].
  destruct (pending_result p) as [f|u] eqn:Hres.
  - cbn [orb]. apply (IH m Hm).
  - destruct (IH (JsMap.delete (pending_address p) m)) as [Huniq Hget];
      [by apply JsMap_unique_delete|].
    split; [exact Huniq|]. unfold remove_settled in Hget |- *. rewrite Hget.
    destruct (String.eqb_spec (pending_address p) a) as [->|Hne]; cbn [orb].
    + rewrite JsMap_get_delete by done. by destruct (existsb _ _).
    + by rewrite JsMap_get_delete_ne.
Qed.

(** Among pending deletions with distinct addresses, the one for [a]
    decides whether some fulfilled deletion names [a]. *)
Lemma existsb_settled (ps : list Pending) (i : nat) (p : Pending) :
  NoDup (map pending_address ps) →
  ps !! i = Some p →
  existsb (λ q, match pending_result q with
                | inr _ => String.eqb (pending_address q) (pending_address p)
                | inl _ => false
                end) ps
  = match pending_result p with inr _ => true | inl _ => false end.
Proof.
  revert i. induction ps as [|q ps IH]; intros i; [done|].
  cbn [map existsb]. intros [Hq Hps]%NoDup_cons. destruct i as [|i]; cbn.
  - intros [= ->]. rewrite String.eqb_refl.
    destruct (pending_result p); [|done]. cbn.
    apply not_true_is_false. intros (x & Hx & Hm)%existsb_exists.
    destruct (pending_result x); [done|]. apply String.eqb_eq in Hm.
    apply Hq. rewrite <- Hm. apply list_elem_of_fmap_2. by apply list_elem_of_In.
  - intros Hi. rewrite (IH i Hps Hi).
    destruct (pending_result q); [done|].
    destruct (String.eqb_spec (pending_address q) (pending_address p)) as [Heq|]; [|done].
    exfalso. apply Hq. rewrite Heq. apply list_elem_of_fmap_2.
    by eapply list_elem_of_lookup_2.
Qed.

Lemma dispatch_all_addresses (c : TacomailClient) (addrs : list string) (w : World) :
  (∀ a, a ∈ addrs → is_Some (JsMap.get a (sessions c))) →
  map pending_address (dispatch_all svc c addrs w).1 = addrs.
Proof.
  intros Hreg.
  destruct (dispatch_all_spec svc c addrs w Hreg) as (_ & _ & Hlen & Hps).
  apply list_eq. intros i. rewrite list_lookup_fmap.
  destruct (addrs !! i) as [a|] eqn:Ha.
  - destruct (Hps i a Ha) as (p & -> & <- & _). done.
  - apply lookup_ge_None in Ha. rewrite lookup_ge_None_2; [done|]. by rewrite Hlen.
Qed.

(** After [deleteAllSessions] the map of the client holds exactly the
    sessions whose deletion the service refused: an address whose deletion
    was accepted is gone, an address whose deletion failed is still
    registered with its Session.  The map is emptied only when every
    deletion was accepted. *)
Theorem deleteAllSessions_keeps_failed
    (c : TacomailClient) (w : World) (i : nat) (a : string) :
  unique_keys c →
  JsMap.keys (sessions c) !! i = Some a →
  let after := sessions (deleteAllSessions svc (c, w)).2.1 in
  (∀ lat u, delete_answer svc c w i a = (lat, inr u) → JsMap.get a after = None)
  ∧ (∀ lat f, delete_answer svc c w i a = (lat, inl f) →
       JsMap.get a after = JsMap.get a (sessions c)
       ∧ is_Some (JsMap.get a after)).
Proof.
  intros Huniq Hi after. subst after. rewrite deleteAllSessions_run.
  assert (Hreg : ∀ a, a ∈ JsMap.keys (sessions c) → is_Some (JsMap.get a (sessions c)))
    by (intros ?; apply JsMap_get_key).
  pose proof (dispatch_all_addresses c _ w Hreg) as Haddrs.
  destruct (dispatch_all_spec svc c (JsMap.keys (sessions c)) w Hreg) as (_ & _ & _ & Hps).
  destruct (Hps i a Hi) as (p & Hp & Hpa & Hans).
  fold (delete_calls c) in Hans. fold (delete_answer svc c w i a) in Hans.
  destruct (dispatch_all svc c _ w) as [ps w1]. cbn [fst snd] in *. cbn zeta.
  destruct (get_remove_settled ps (sessions c) (pending_address p) Huniq) as [_ Hget].
  rewrite (existsb_settled ps i p) in Hget; [| rewrite Haddrs; exact Huniq | exact Hp].
  rewrite Hpa in Hget.
  split.
  - intros lat u Hok. rewrite Hok in Hans. injection Hans as _ Hres.
    rewrite Hres in Hget.
    destruct (earliest_failure ps) as [[lat' f']|]; cbn; [exact Hget|done].
  - intros lat f Hfail. rewrite Hfail in Hans. injection Hans as _ Hres.
    rewrite Hres in Hget.
    destruct (earliest_failure_some ps p f) as [[lat' f'] Hsome];
      [by eapply list_elem_of_lookup_2|done|].
    rewrite Hsome. cbn. rewrite Hget. split; [done|].
    apply JsMap_get_key. by eapply list_elem_of_lookup_2.
Qed.

End DeleteSessions.

(** ** The domain list when the service fails *)

Section DomainFailure.
Variable svc : Service.

(** A failed fetch of the domain list is not remembered: the call throws
    the error of the service, the cache stays empty, and the next call
    sends the request again. *)
Theorem getDomains_failure_not_cached
    (c : TacomailClient) (w : World) (lat : N) (f : Failure) :
  domainsCache c = None →
  get_domains svc (trace w) (client_server c) = (lat, inl f) →
  ∃ w1, getDomains svc (c, w) = (Throw (handleApiError f "GET /domains"), (c, w1))
        ∧ new_events w w1 = [EvCall (GetDomains (client_server c))]
        ∧ arrayStore w1 = arrayStore w
        ∧ new_events w1 (getDomains svc (c, w1)).2.2 = [EvCall (GetDomains (client_server c))].
Proof.
  intros Hc Hget.
  assert (Hfirst : ∀ w0, new_events w0 (getDomains svc (c, w0)).2.2
                         = [EvCall (GetDomains (client_server c))]).
  { intros w0. unfold getDomains, bind, this_client. rewrite Hc.
    unfold liftW, getAvailableDomains, bind, request, send, settle, new_events.
    destruct (get_domains svc (trace w0) (client_server c)) as [lat0 [f0|ds]]; cbn.
    - apply drop_app_length.
    - unfold read_array. cbn. rewrite lookup_insert_eq. cbn. apply drop_app_length. }
  eexists. split; [|split; [|split]].
  - unfold getDomains, bind, this_client. rewrite Hc.
    unfold liftW, getAvailableDomains, bind, request, send, settle. rewrite Hget.
    reflexivity.
  - unfold new_events. cbn. apply drop_app_length.
  - done.
  - apply Hfirst.
Qed.

End DomainFailure.

(** ** More on waiting for mail *)

Section WaitForMailMore.
Variable svc : Service.

Lemma count_app (p : Event → bool) (a b : Trace) :
  count p (a ++ b) = (count p a + count p b)%nat.
Proof. unfold count. by rewrite List.filter_app, length_app. Qed.

(** The mail a run of the loop returns passes the filter and stands in the
    listing of the last request of the run. *)
Lemma waitForMail_loop_result fuel this filter timeout interval start ids w mail w' :
  waitForMail_loop svc fuel this filter timeout interval start ids w = (Return mail, w') →
  filter mail = true
  ∧ ∃ mid mailData,
      trace w' = (trace w ++ mid) ++ [list_call this]
      ∧ (get_mail svc (trace w ++ mid) (inbox_server this) (inbox_address this)).2
        = inr mailData
      ∧ mail ∈ map (λ m, new_Mail m (inbox_address this) (inbox_server this)) mailData.
Proof.
  revert w. induction fuel as [|fuel IH]; intros w; [discriminate|].
  cbn [waitForMail_loop]. unfold bind at 1, Date_now.
  destruct (_ <? _); [|discriminate].
  unfold bind at 1. rewrite getAllMail_run.
  destruct (get_mail svc (trace w) _ _) as [lat [f|mailData]] eqn:Hget;
    cbn [fst snd]; [discriminate|].
  assert (Hhere : ∀ p,
    find p (map (λ m, new_Mail m (inbox_address this) (inbox_server this)) mailData)
      = Some mail →
    (∀ x, p x = true → filter x = true) →
    filter mail = true
    ∧ ∃ mid mailData0,
        trace (advance (Z.of_N lat) (record_event (list_call this) w))
          = (trace w ++ mid) ++ [list_call this]
        ∧ (get_mail svc (trace w ++ mid) (inbox_server this) (inbox_address this)).2
          = inr mailData0
        ∧ mail ∈ map (λ m, new_Mail m (inbox_address this) (inbox_server this)) mailData0).
  { intros p [Hin Hp]%find_some Hpf. split; [auto|].
    exists [], mailData. rewrite app_nil_r, Hget.
    split; [done|]. split; [done|]. by apply list_elem_of_In. }
  set (pnew := λ m : Mail, negb (has ids (mail_id m)) && filter m).
  set (pold := λ m : Mail, has ids (mail_id m) && filter m).
  destruct (find pnew _) as [m1|] eqn:Hfind1.
  { unfold ret. intros [= -> <-].
    apply (Hhere _ Hfind1). by intros x [_ ?]%andb_true_iff. }
  destruct (find pold _) as [m2|] eqn:Hfind2.
  { unfold ret. intros [= -> <-].
    apply (Hhere _ Hfind2). by intros x [_ ?]%andb_true_iff. }
  unfold bind, sleep. intros Hrun. apply IH in Hrun as (Hf & mid & mailData' & Htr & Hget' & Hin).
  split; [done|]. cbn in Htr, Hget'.
  exists ([list_call this; EvSleep interval] ++ mid), mailData'.
  rewrite Htr. rewrite <- !app_assoc in *. cbn in *. done.
Qed.

(** Whatever [waitForMail] returns passes the filter, belongs to the
    inbox, and stands in the listing of the last request made, which is a
    poll and not the baseline fetch. *)
Theorem waitForMail_result_matches
    (fuel : nat) (this : Inbox) (filter : Mail → bool) (timeout interval : Z)
    (w w' : World) (mail : Mail) :
  waitForMail svc fuel this filter timeout interval w = (Return mail, w') →
  filter mail = true
  ∧ mail_address mail = inbox_address this
  ∧ mail_server mail = inbox_server this
  ∧ (2 ≤ count is_list_call (new_events w w'))%nat
  ∧ ∃ tr mailData,
      trace w' = tr ++ [list_call this]
      ∧ (get_mail svc tr (inbox_server this) (inbox_address this)).2 = inr mailData
      ∧ mail ∈ map (λ m, new_Mail m (inbox_address this) (inbox_server this)) mailData.
Proof.
  rewrite waitForMail_unfold.
  destruct (get_mail svc (trace w) _ _) as [lat [f|base]]; cbn [fst snd]; [discriminate|].
  intros (Hf & mid & mailData & Htr & Hget & Hin)%waitForMail_loop_result.
  cbn in Htr, Hget.
  assert (Hfields : mail_address mail = inbox_address this
                    ∧ mail_server mail = inbox_server this).
  { apply list_elem_of_fmap in Hin as (m & -> & _). done. }
  destruct Hfields as [Ha Hs]. repeat split; try done.
  - unfold new_events. rewrite Htr, <- !app_assoc, drop_app_length.
    rewrite !count_app. cbn. lia.
  - eauto.
Qed.

Lemma find_existing_is_find (ids : gset string) (filter : Mail → bool) (mails : list Mail) :
  find (λ mail, negb (has ids (mail_id mail)) && filter mail) mails = None →
  find (λ mail, has ids (mail_id mail) && filter mail) mails = find filter mails.
Proof.
  induction mails as [|m mails IH]; [done|]. cbn.
  destruct (has ids (mail_id m)), (filter m); cbn; try done; auto.
Qed.

(** The first poll decides by what is new: a mail that was not in the
    baseline and passes the filter is returned even when mails of the
    baseline that pass the filter stand before it in the listing; only
    when no such mail is listed does the first listed mail that passes the
    filter win. *)
Theorem waitForMail_new_mail_first
    (fuel : nat) (this : Inbox) (filter : Mail → bool) (timeout interval : Z) (w : World)
    (lat0 lat1 : N) (baseline listing : list MailType) (mail : Mail) :
  get_mail svc (trace w) (inbox_server this) (inbox_address this) = (lat0, inr baseline) →
  get_mail svc (trace w ++ [list_call this]) (inbox_server this) (inbox_address this)
    = (lat1, inr listing) →
  Z.of_N lat0 < timeout →
  first_poll_choice filter this baseline listing = Some mail →
  ∃ w', waitForMail svc (S fuel) this filter timeout interval w = (Return mail, w')
        ∧ new_events w w' = [list_call this; list_call this].
Proof.
  intros Hbase Hlist Hlat Hmail.
  rewrite waitForMail_unfold, Hbase. cbn [fst snd].
  rewrite waitForMail_loop_step by (cbn; lia). cbn zeta. cbn [trace advance record_event].
  rewrite Hlist. cbn [fst snd].
  unfold first_poll_choice, first_new_match in Hmail.
  assert (Htrace : new_events w
            (advance (Z.of_N lat1) (record_event (list_call this)
               (advance (Z.of_N lat0) (record_event (list_call this) w))))
            = [list_call this; list_call this]).
  { unfold new_events. cbn. by rewrite <- app_assoc, drop_app_length. }
  destruct (find (λ mail0, negb _ && filter mail0) _) as [m|] eqn:Hnew.
  - injection Hmail as ->. eexists. split; [reflexivity|]. exact Htrace.
  - rewrite (find_existing_is_find _ _ _ Hnew), Hmail.
    eexists. split; [reflexivity|]. exact Htrace.
Qed.

(** A failure of the baseline fetch ends [waitForMail] with the error of
    the service, before the timeout is looked at: one request, no poll,
    whatever the timeout and the fuel. *)
Theorem waitForMail_baseline_failure
    (fuel : nat) (this : Inbox) (filter : Mail → bool) (timeout interval : Z) (w : World)
    (lat : N) (f : Failure) :
  get_mail svc (trace w) (inbox_server this) (inbox_address this) = (lat, inl f) →
  ∃ w', waitForMail svc fuel this filter timeout interval w
          = (Throw (handleApiError f ("GET /mail/" +:+ inbox_address this)), w')
        ∧ new_events w w' = [list_call this]
        ∧ handleApiError f ("GET /mail/" +:+ inbox_address this) ≠ TimeoutError timeout.
Proof.
  intros Hget. rewrite waitForMail_unfold, Hget. cbn [fst snd].
  eexists. split; [reflexivity|]. split.
  - unfold new_events. cbn. apply drop_app_length.
  - by apply local_error_not_service.
Qed.

(** How many polls one run of the loop makes: the sleep after a poll
    lasts as long as its timer at least. *)
Lemma waitForMail_loop_polls this filter timeout interval start ids :
  ∀ fuel w,
    ∃ mid, trace (waitForMail_loop svc fuel this filter timeout interval start ids w).2
           = trace w ++ mid
      ∧ Z.of_nat (count is_list_call mid) * timer_delay interval
        ≤ Z.max 0 (timeout - (clock w - start) + timer_delay interval - 1).
Proof.
  pose proof (timer_delay_pos interval) as Hint.
  induction fuel as [|fuel IH]; intros w.
  { exists []. cbn. rewrite app_nil_r. split; [done|lia]. }
  cbn [waitForMail_loop]. unfold bind at 1, Date_now.
  destruct (Z.ltb_spec (clock w - start) timeout) as [Hin|Hout].
  2:{ exists []. cbn. rewrite app_nil_r. split; [done|lia]. }
  unfold bind at 1. rewrite getAllMail_run.
  assert (Hone : ∃ mid,
            trace (advance (Z.of_N (get_mail svc (trace w) (inbox_server this)
                                      (inbox_address this)).1)
                     (record_event (list_call this) w)) = trace w ++ mid
            ∧ Z.of_nat (count is_list_call mid) * timer_delay interval
              ≤ Z.max 0 (timeout - (clock w - start) + timer_delay interval - 1)).
  { exists [list_call this]. split; [done|]. cbn. lia. }
  destruct (get_mail svc (trace w) _ _) as [lat [f|mailData]]; cbn [fst snd] in *; [done|].
  destruct (find _ _); [done|]. destruct (find _ _); [done|].
  unfold bind, sleep.
  match goal with |- context [waitForMail_loop svc fuel _ _ _ _ _ _ ?w2] =>
    destruct (IH w2) as (mid & Htr & Hbound) end.
  exists ([list_call this; EvSleep interval] ++ mid). split.
  - rewrite Htr. cbn. by rewrite <- !app_assoc.
  - rewrite count_app. cbn in Hbound |- *. lia.
Qed.

(** The number of requests of one [waitForMail] is bounded by the timeout
    over the delay its timer runs with (the interval when that is from 1
    to 2147483647, else 1): at most [timeout / delay + 2] listings are
    fetched, the baseline included, however the service answers and
    whatever the filter. *)
Theorem waitForMail_request_bound
    (fuel : nat) (this : Inbox) (filter : Mail → bool) (timeout interval : Z) (w : World) :
  Z.of_nat (count is_list_call
              (new_events w (waitForMail svc fuel this filter timeout interval w).2))
  ≤ Z.max 0 timeout / timer_delay interval + 2
  ∧ (1 ≤ interval ≤ TIMEOUT_MAX → timer_delay interval = interval)
  ∧ (¬ (1 ≤ interval ≤ TIMEOUT_MAX) → timer_delay interval = 1).
Proof.
  pose proof (timer_delay_pos interval) as Hint.
  split.
  2:{ unfold timer_delay. split; intros H.
      - destruct (Z.leb_spec 1 interval), (Z.leb_spec interval TIMEOUT_MAX); cbn; lia.
      - destruct (Z.leb_spec 1 interval), (Z.leb_spec interval TIMEOUT_MAX); cbn; lia. }
  rewrite waitForMail_unfold.
  destruct (get_mail svc (trace w) _ _) as [lat [f|base]]; cbn [fst snd].
  { unfold new_events. cbn. rewrite drop_app_length. cbn.
    pose proof (Z.div_pos (Z.max 0 timeout) (timer_delay interval)). lia. }
  match goal with |- context [waitForMail_loop svc fuel _ _ _ _ _ ?ids ?w1] =>
    destruct (waitForMail_loop_polls this filter timeout interval (clock w) ids fuel w1)
      as (mid & Htr & Hbound) end.
  unfold new_events. rewrite Htr. cbn [trace advance record_event].
  rewrite <- app_assoc, drop_app_length. cbn [app].
  change (list_call this :: mid) with ([list_call this] ++ mid). rewrite count_app.
  cbn in Hbound |- *.
  pose proof (Z.div_mod (Z.max 0 timeout) (timer_delay interval) ltac:(lia)) as Hdm.
  pose proof (Z.mod_pos_bound (Z.max 0 timeout) (timer_delay interval) ltac:(lia)) as Hmod.
  nia.
Qed.

End WaitForMailMore.

(** ** Translating failures of the transport *)

Section ErrorTranslation.
Variable svc : Service.

Lemma take_until_absent (c : ascii) (s : string) :
  Js.includes c s = false → Js.take_until c s = s.
Proof.
  induction s as [|a s IH]; cbn -[Ascii.eqb]; [done|].
  intros [Ha Hs]%orb_false_elim. by rewrite Ha, (IH Hs).
Qed.

Lemma startsWith_mail (addr : string) : Js.startsWith "GET /mail/" ("GET /mail/" +:+ addr) = true.
Proof. reflexivity. Qed.

(** In the endpoint tag of the mail listing the pattern finds the address
    up to its first slash. *)
Lemma match_mail_address_listing (addr : string) :
  Js.take_until "/" addr ≠ "" →
  match_mail_address ("GET /mail/" +:+ addr) = Some (Js.take_until "/" addr).
Proof.
  intros Hne.
  change ("GET /mail/" +:+ addr)
    with (String "G" (String "E" (String "T" (String " " (String "/" (String "m"
            (String "a" (String "i" (String "l" (String "/" addr)))))))))).
  cbn [match_mail_address Js.strip_prefix Ascii.eqb Bool.eqb].
  cbn -[match_mail_address String.eqb Js.take_until].
  destruct (String.eqb_spec (Js.take_until "/" addr) ""); [done|reflexivity].
Qed.

(** A failure with an HTTP response keeps its status code and never has an
    empty message.  Unless it is the not-found case of the mail listing,
    the error carries the endpoint tag, and its message is the body's
    [message] when that is a non-empty text, else the body's [error] when
    that is one, else the message of the transport when that is not empty,
    else a fixed text. *)
Theorem handleApiError_axios (ax : AxiosError) (ep : string) :
  statusCode (handleApiError (AxiosFailure ax) ep) = ax_status ax
  ∧ message (handleApiError (AxiosFailure ax) ep) ≠ ""
  ∧ (Js.startsWith "GET /mail/" ep && bool_decide (ax_status ax = Some 404) = true →
       handleApiError (AxiosFailure ax) ep
       = InboxNotFoundError (default "unknown" (match_mail_address ep)))
  ∧ (Js.startsWith "GET /mail/" ep && bool_decide (ax_status ax = Some 404) = false →
       err_name (handleApiError (AxiosFailure ax) ep) = "TacomailError"
       ∧ endpoint (handleApiError (AxiosFailure ax) ep) = Some ep
       ∧ message (handleApiError (AxiosFailure ax) ep)
         = if Js.truthy (ax_data_message ax) then default "" (ax_data_message ax)
           else if Js.truthy (ax_data_error ax) then default "" (ax_data_error ax)
           else if negb (String.eqb (ax_message ax) "") then ax_message ax
           else "Unknown API error").
Proof.
  cbn. destruct (Js.startsWith _ ep && bool_decide _) eqn:Hnf.
  - apply andb_true_iff in Hnf as [_ Hst%bool_decide_eq_true]. cbn.
    split; [done|]. split; [|split; [done|discriminate]].
    destruct (match_mail_address ep); discriminate.
  - cbn. split; [done|].
    assert (Hmsg : default "Unknown API error"
                     (Js.or (ax_data_message ax)
                        (Js.or (ax_data_error ax)
                           (Js.or (Some (ax_message ax)) (Some "Unknown API error"))))
                   = if Js.truthy (ax_data_message ax) then default "" (ax_data_message ax)
                     else if Js.truthy (ax_data_error ax) then default "" (ax_data_error ax)
                     else if negb (String.eqb (ax_message ax) "") then ax_message ax
                     else "Unknown API error").
    { unfold Js.or.
      destruct (Js.truthy (ax_data_message ax)) eqn:H1.
      { by destruct (ax_data_message ax). }
      destruct (Js.truthy (ax_data_error ax)) eqn:H2.
      { by destruct (ax_data_error ax). }
      cbn. by destruct (String.eqb (ax_message ax) ""). }
    split; [|split; [discriminate|done]].
    rewrite Hmsg.
    destruct (Js.truthy (ax_data_message ax)) eqn:H1.
    { destruct (ax_data_message ax) as [m|]; [|discriminate]. cbn in *.
      by destruct (String.eqb_spec m ""). }
    destruct (Js.truthy (ax_data_error ax)) eqn:H2.
    { destruct (ax_data_error ax) as [m|]; [|discriminate]. cbn in *.
      by destruct (String.eqb_spec m ""). }
    destruct (String.eqb_spec (ax_message ax) ""); cbn; done.
Qed.

(** The not-found error of an inbox is made for one case only: an HTTP
    404 on an endpoint of the mail listing.  Creating or deleting a
    session and fetching the domains never fail with it. *)
Theorem handleApiError_inbox_not_found (f : Failure) (ep : string) :
  (err_name (handleApiError f ep) = "InboxNotFoundError"
   ↔ ∃ ax, f = AxiosFailure ax ∧ ax_status ax = Some 404
           ∧ Js.startsWith "GET /mail/" ep = true)
  ∧ err_name (handleApiError f "POST /session") = "TacomailError"
  ∧ err_name (handleApiError f "DELETE /session") = "TacomailError"
  ∧ err_name (handleApiError f "GET /domains") = "TacomailError".
Proof.
  split; [|by destruct f].
  destruct f as [ax| |]; cbn.
  - destruct (Js.startsWith _ ep) eqn:Hsw; cbn.
    + destruct (bool_decide_reflect (ax_status ax = Some 404)) as [Hst|Hst]; cbn.
      * split; [intros _; eauto|done].
      * split; [discriminate|]. intros (ax' & [= <-] & Hst' & _). done.
    + split; [discriminate|]. intros (ax' & _ & _ & ?). done.
  - split; [discriminate|]. intros (ax' & ? & _). done.
  - split; [discriminate|]. intros (ax' & ? & _). done.
Qed.

(** When the service answers the mail listing with 404, [getAllMail]
    throws the not-found error naming the address of the inbox (an address
    that is not empty and has no slash). *)
Theorem getAllMail_not_found (this : Inbox) (w : World) (lat : N) (ax : AxiosError) :
  inbox_address this ≠ "" →
  Js.includes "/" (inbox_address this) = false →
  ax_status ax = Some 404 →
  get_mail svc (trace w) (inbox_server this) (inbox_address this)
    = (lat, inl (AxiosFailure ax)) →
  ∃ w', getAllMail svc this w = (Throw (InboxNotFoundError (inbox_address this)), w')
        ∧ new_events w w' = [list_call this]
        ∧ statusCode (InboxNotFoundError (inbox_address this)) = Some 404.
Proof.
  intros Hne Hslash Hst Hget. rewrite getAllMail_run, Hget. cbn [fst snd].
  eexists. split; [|split; [|done]].
  - f_equal. f_equal. unfold handleApiError.
    rewrite startsWith_mail, Hst. cbn [andb].
    rewrite bool_decide_eq_true_2 by done.
    rewrite match_mail_address_listing; rewrite (take_until_absent _ _ Hslash); done.
  - unfold new_events. cbn. apply drop_app_length.
Qed.

(** A listing that succeeds is turned into Mail objects one for one, in
    order: same ids, each bound to the address and server of the inbox,
    each attachment bound to the id of its mail. *)
Theorem getAllMail_mails (this : Inbox) (w : World) (lat : N) (mailData : list MailType) :
  get_mail svc (trace w) (inbox_server this) (inbox_address this) = (lat, inr mailData) →
  ∃ mails w', getAllMail svc this w = (Return mails, w')
    ∧ map mail_id mails = map mt_id mailData
    ∧ map getAttachmentCount mails = map (λ m, length (mt_attachments m)) mailData
    ∧ Forall (λ mail,
        mail_address mail = inbox_address this
        ∧ mail_server mail = inbox_server this
        ∧ Forall (λ a, attachment_mailId a = mail_id mail
                       ∧ attachment_address a = inbox_address this
                       ∧ attachment_server a = inbox_server this)
            (mail_attachments mail)) mails
    ∧ sessionStore w' = sessionStore w.
Proof.
  intros Hget. rewrite getAllMail_run, Hget. cbn [fst snd].
  eexists _, _. split; [reflexivity|]. rewrite !map_map. cbn.
  repeat split.
  - unfold getAttachmentCount. apply map_ext. intros m. cbn. by rewrite length_map.
  - apply Forall_map. apply Forall_forall. intros m _. cbn.
    repeat split. apply Forall_map. by apply Forall_forall.
Qed.

End ErrorTranslation.

(** ** The auto-refresh timer and the end of an inbox *)

Section AutoRefresh.
Variable svc : Service.

Lemma fresh_timer (t : gmap nat Z) : t !! fresh (dom t) = None.
Proof. apply not_elem_of_dom, is_fresh. Qed.


(** [enableAutoRefresh] followed by [disableAutoRefresh] comes to the same
    as [disableAutoRefresh] alone: the inbox holds no timer, and a timer
    it held before is cancelled.  For an inbox without a timer this gives
    back the inbox and the table of timers as they were.  Disabling again
    changes nothing. *)
Theorem disableAutoRefresh_undoes (interval : Z) (this : Inbox) (w : World) :
  disableAutoRefresh (enableAutoRefresh interval this w).1 (enableAutoRefresh interval this w).2
    = disableAutoRefresh this w
  ∧ refreshTimer (disableAutoRefresh this w).1 = None
  ∧ (∀ t, refreshTimer this = Some t →
       timers (disableAutoRefresh this w).2 = delete t (timers w))
  ∧ (refreshTimer this = None → disableAutoRefresh this w = (this, w))
  ∧ disableAutoRefresh (disableAutoRefresh this w).1 (disableAutoRefresh this w).2
    = disableAutoRefresh this w.
Proof.
  split; [|split; [|split; [|split]]].
  - unfold enableAutoRefresh, disableAutoRefresh, setInterval, clearInterval.
    destruct (refreshTimer this) as [t|] eqn:Ht; cbn.
    + rewrite delete_insert_id by apply fresh_timer. done.
    + rewrite delete_insert_id by apply fresh_timer.
      destruct this, w. cbn in *. by subst.
  - unfold disableAutoRefresh. by destruct (refreshTimer this) eqn:Ht.
  - intros t Ht. unfold disableAutoRefresh. by rewrite Ht.
  - intros Ht. unfold disableAutoRefresh. by rewrite Ht.
  - unfold disableAutoRefresh.
    destruct (refreshTimer this) eqn:Ht; cbn; by rewrite ?Ht.
Qed.

(** [cleanup] stops the timer.  It sends a request only when asked to
    delete the session and the inbox holds one: then exactly the deletion
    for the parts of the address.  The Session object is left as it is, so
    that [hasActiveSession] still answers by its expiry afterwards. *)
Theorem cleanup_effects (flag : bool) (this : Inbox) (w : World) :
  let run := cleanup svc flag (this, w) in
  refreshTimer run.2.1 = None
  ∧ inbox_session run.2.1 = inbox_session this
  ∧ sessionStore run.2.2 = sessionStore w
  ∧ (∀ t, refreshTimer this = Some t → timers run.2.2 !! t = None)
  ∧ new_events w run.2.2
    = (if flag && bool_decide (is_Some (inbox_session this))
       then [EvCall (DeleteSession (inbox_server this)
                       (Js.destructure2 (Js.split "@" (inbox_address this))).1
                       (Js.destructure2 (Js.split "@" (inbox_address this))).2)]
       else [])
  ∧ (flag && bool_decide (is_Some (inbox_session this)) = false → run.1 = Return tt)
  ∧ (∀ l s, inbox_session this = Some l → sessionStore w !! l = Some s →
       hasActiveSession run.2.1 run.2.2
       = (Return (clock run.2.2 <? expires s), run.2.2)).
Proof.
  intros run. subst run. unfold cleanup.
  assert (Hd : refreshTimer (disableAutoRefresh this w).1 = None
               ∧ inbox_session (disableAutoRefresh this w).1 = inbox_session this
               ∧ inbox_address (disableAutoRefresh this w).1 = inbox_address this
               ∧ inbox_server (disableAutoRefresh this w).1 = inbox_server this
               ∧ sessionStore (disableAutoRefresh this w).2 = sessionStore w
               ∧ trace (disableAutoRefresh this w).2 = trace w
               ∧ (∀ t, refreshTimer this = Some t →
                    timers (disableAutoRefresh this w).2 !! t = None)).
  { unfold disableAutoRefresh, clearInterval.
    destruct (refreshTimer this) as [t|] eqn:Ht; cbn; repeat split; try done.
    intros t' [= <-]. apply lookup_delete_eq. }
  destruct (disableAutoRefresh this w) as [this' w'].
  cbn [fst snd] in Hd. destruct Hd as (Ht & Hs & Ha & Hsrv & Hstore & Htr & Htimers).
  rewrite Hs, Ha, Hsrv.
  assert (Hactive : ∀ w2 l s, sessionStore w2 = sessionStore w →
            inbox_session this = Some l → sessionStore w !! l = Some s →
            hasActiveSession this' w2 = (Return (clock w2 <? expires s), w2)).
  { intros w2 l s Hw2 Hl Hsl. unfold hasActiveSession, bind, read_session.
    by rewrite Hs, Hl, Hw2, Hsl. }
  destruct (flag && bool_decide (is_Some (inbox_session this))) eqn:Hflag.
  - destruct (Js.destructure2 _) as [u d]. cbn [fst snd].
    unfold liftW, deleteSession, request, send, settle.
    destruct (delete_session svc (trace w') (inbox_server this) u d) as [lat r].
    cbn [fst snd]. repeat split; try done.
    + unfold new_events. cbn. rewrite Htr. apply drop_app_length.
    + intros l s Hl Hsl. by apply (Hactive _ l s).
  - cbn [fst snd]. repeat split; try done.
    + unfold new_events. rewrite Htr. by rewrite drop_all.
    + intros l s Hl Hsl. by apply (Hactive _ l s).
Qed.

(** A tick of the auto-refresh timer does what [refreshSession] does and
    never throws: with the session missing or expired it changes nothing,
    and with the service failing it leaves the Session as it was. *)
Theorem refreshTick_never_throws (this : Inbox) (w : World) :
  (∀ e, (refreshTick svc this w).1 ≠ Throw e)
  ∧ (refreshTick svc this w).2 = (refreshSession svc this w).2
  ∧ (inbox_session this = None → refreshTick svc this w = (Return tt, w))
  ∧ (∀ l s, inbox_session this = Some l → sessionStore w !! l = Some s →
       (expires s ≤ clock w → refreshTick svc this w = (Return tt, w))
       ∧ (refreshTick svc this w).1 = Return tt
       ∧ ((refreshSession svc this w).1 ≠ Return tt →
            sessionStore (refreshTick svc this w).2 = sessionStore w)).
Proof.
  split; [|split; [|split]].
  - intros e. unfold refreshTick. by destruct (refreshSession svc this w) as [[| | |] ?].
  - unfold refreshTick. by destruct (refreshSession svc this w) as [[| | |] ?].
  - intros Hs. unfold refreshTick, refreshSession. by rewrite Hs.
  - intros l s Hs Hl. unfold refreshTick.
    destruct (Z.lt_ge_cases (clock w) (expires s)) as [Hvalid|Hexp].
    + rewrite (refreshSession_valid_run svc this l s w Hs Hl Hvalid).
      destruct (Js.destructure2 _) as [u d].
      destruct (post_session svc _ _ _ _) as [lat [f|e]]; (split; [lia|done]).
    + by rewrite (refreshSession_expired_run svc this l s w Hs Hl Hexp).
Qed.

(** When the service refuses a refresh of a valid Session, the error of
    the service is thrown after one request and the Session keeps its
    expiry. *)
Theorem refreshSession_service_failure
    (this : Inbox) (l : loc) (s : Session) (w : World) (lat : N) (f : Failure) :
  inbox_session this = Some l →
  sessionStore w !! l = Some s →
  clock w < expires s →
  post_session svc (trace w) (inbox_server this)
    (Js.destructure2 (Js.split "@" (inbox_address this))).1
    (Js.destructure2 (Js.split "@" (inbox_address this))).2 = (lat, inl f) →
  ∃ w', refreshSession svc this w = (Throw (handleApiError f "POST /session"), w')
        ∧ sessionStore w' = sessionStore w
        ∧ count is_post_session (new_events w w') = 1%nat
        ∧ handleApiError f "POST /session" ≠ SessionExpiredError (inbox_address this)
        ∧ handleApiError f "POST /session" ≠ NoSessionError.
Proof.
  intros Hs Hl Hvalid Hpost.
  rewrite (refreshSession_valid_run svc this l s w Hs Hl Hvalid).
  destruct (Js.destructure2 _) as [u d]. cbn [fst snd] in Hpost. rewrite Hpost.
  eexists. split; [reflexivity|]. repeat split.
  - unfold new_events. cbn. by rewrite drop_app_length.
  - destruct f as [ax| |]; cbn; discriminate.
  - by apply local_error_not_service.
Qed.

(** After a successful refresh the inbox is active exactly until the
    expiry the service has just granted, also when that is earlier than
    the one before or already past. *)
Theorem refreshSession_then_hasActiveSession
    (this : Inbox) (l : loc) (s : Session) (w w' : World) (ms : Z) :
  inbox_session this = Some l →
  sessionStore w !! l = Some s →
  refreshSession svc this w = (Return tt, w') →
  ∃ lat e,
    post_session svc (trace w) (inbox_server this)
      (Js.destructure2 (Js.split "@" (inbox_address this))).1
      (Js.destructure2 (Js.split "@" (inbox_address this))).2 = (lat, inr e)
    ∧ clock w' = clock w + Z.of_N lat
    ∧ hasActiveSession this (advance ms w') = (Return (clock w' + ms <? e), advance ms w').
Proof.
  intros Hs Hl Hrun.
  destruct (Z.lt_ge_cases (clock w) (expires s)) as [Hvalid|Hexp].
  2:{ rewrite (refreshSession_expired_run svc this l s w Hs Hl Hexp) in Hrun. discriminate. }
  rewrite (refreshSession_valid_run svc this l s w Hs Hl Hvalid) in Hrun.
  destruct (Js.destructure2 _) as [u d]. cbn [fst snd].
  destruct (post_session svc _ _ _ _) as [lat [f|e]]; [discriminate|].
  injection Hrun as <-. exists lat, e. repeat split.
  unfold hasActiveSession, bind, read_session. rewrite Hs. cbn.
  by rewrite lookup_insert_eq.
Qed.

End AutoRefresh.

(** ** Active sessions *)

Section ActiveSessions.

Lemma JsMap_get_value {V} (k : string) (v : V) (m : list (string * V)) :
  JsMap.get k m = Some v → v ∈ JsMap.values m.
Proof.
  unfold JsMap.values. induction m as [|[k0 v0] m IH]; cbn; [done|].
  destruct (String.eqb k k0).
  - intros [= ->]. by left.
  - intros H. right. auto.
Qed.

(** [getActiveSessions] only reads.  A registered Session is in its result
    exactly while the clock is before its expiry, which is also what
    [hasActiveSession] of the inbox for that address answers; an expired
    Session is left out of the result and stays registered. *)
Theorem getActiveSessions_agrees
    (c : TacomailClient) (w : World) (a : string) (l : loc) (s : Session) :
  JsMap.get a (sessions c) = Some l →
  sessionStore w !! l = Some s →
  ∃ ls, getActiveSessions (c, w) = (Return ls, (c, w))
    ∧ (l ∈ ls ↔ clock w < expires s)
    ∧ hasActiveSession (getInbox c a) w = (Return (bool_decide (l ∈ ls)), w)
    ∧ (∀ l', l' ∈ ls → l' ∈ JsMap.values (sessions c)).
Proof.
  intros Hget Hl. eexists. split; [reflexivity|].
  assert (Hiff : l ∈ List.filter
                   (λ l0, match sessionStore w !! l0 with
                          | Some s0 => isValid (clock w) s0
                          | None => false
                          end) (JsMap.values (sessions c))
                 ↔ clock w < expires s).
  { rewrite list_elem_of_In, filter_In, <- list_elem_of_In, Hl. unfold isValid.
    rewrite Z.ltb_lt. pose proof (JsMap_get_value a l _ Hget). tauto. }
  split; [exact Hiff|]. split.
  - unfold hasActiveSession, getInbox, bind, read_session, Date_now, ret.
    cbn [inbox_session new_Inbox]. rewrite Hget, Hl. unfold isValid at 1.
    destruct (Z.ltb_spec (clock w) (expires s)) as [Hlt|Hge].
    + rewrite bool_decide_eq_true_2; [done|]. by apply Hiff.
    + rewrite bool_decide_eq_false_2; [done|]. rewrite Hiff. lia.
  - intros l'. rewrite !list_elem_of_In, filter_In. tauto.
Qed.

End ActiveSessions.

(** ** Attachments *)

Section AttachmentFacts.
Variable toLowerCase : string → string.

Lemma split_last_segment (base ext : string) :
  Js.includes "." ext = false →
  ∃ x xs, Js.split "." (base +:+ String "." ext) = x :: xs
          ∧ xs ≠ [] ∧ List.last (x :: xs) "" = ext.
Proof.
  intros Hext. induction base as [|a base (x & xs & IH & Hxs & Hlast)].
  - change ("" +:+ String "." ext) with (String "." ext).
    rewrite split_leading, (split_no_sep _ _ Hext). by exists "", [ext].
  - change (String a base +:+ String "." ext) with (String a (base +:+ String "." ext)).
    cbn -[Ascii.eqb List.last]. rewrite IH.
    destruct (Ascii.eqb a "."); eexists _, _; (split; [reflexivity|]).
    + split; [done|]. exact Hlast.
    + split; [done|]. destruct xs as [|y ys]; [done|]. exact Hlast.
Qed.

Lemma not_image_empty : "" ∉ imageExtensions.
Proof.
  unfold imageExtensions. intros H.
  repeat (apply elem_of_cons in H as [H|H]; [discriminate H|]).
  by apply elem_of_nil in H.
Qed.

(** A file name without a dot has no extension and is no image.  In a
    file name with dots the extension is the text after the last dot, in
    lower case, and the attachment is an image exactly when that is one
    of the eight image extensions. *)
Theorem getExtension_cases (a : Attachment) :
  (Js.includes "." (attachment_filename a) = false →
     getExtension toLowerCase a = None ∧ isImage toLowerCase a = false)
  ∧ (∀ base ext,
       attachment_filename a = base +:+ "." +:+ ext →
       Js.includes "." ext = false →
       getExtension toLowerCase a = Some (toLowerCase ext)
       ∧ (isImage toLowerCase a = true ↔ toLowerCase ext ∈ imageExtensions)).
Proof.
  split.
  - intros Hno. unfold isImage, getExtension. by rewrite (split_no_sep _ _ Hno).
  - intros base ext Hname Hext.
    assert (Hget : getExtension toLowerCase a = Some (toLowerCase ext)).
    { unfold getExtension. rewrite Hname.
      change (base +:+ "." +:+ ext) with (base +:+ String "." ext).
      destruct (split_last_segment base ext Hext) as (x & xs & -> & Hxs & ->).
      destruct xs; done. }
    split; [exact Hget|]. unfold isImage. rewrite Hget. cbn.
    destruct (String.eqb_spec (toLowerCase ext) "") as [Heq|Hne]; cbn.
    + rewrite Heq. split; [done|]. intros H. by apply not_image_empty in H.
    + apply bool_decide_eq_true.
Qed.

End AttachmentFacts.

(** ** Concrete runs of the further properties *)

Section MoreRuns.
Import Scenario Cases.

Lemma unique_keys_client3 : unique_keys client3.
Proof.
  unfold unique_keys. cbn.
  repeat (apply NoDup_cons; split;
            [rewrite ?not_elem_of_cons, elem_of_nil; intuition discriminate|]).
  apply NoDup_nil_2.
Defined.

Lemma createInbox_invalid_address_witness :
  createInbox steady "nobody" None (client0, world0)
    = (Throw InvalidAddressError, (client0, world0)).
Proof.
  apply (createInbox_invalid_address steady "nobody" None client0 world0).
  left. reflexivity.
Defined.

Lemma createInbox_service_failure_witness :
  ∃ w', createInbox down ("abc" +:+ "@" +:+ "example.com") None (client0, world0)
          = (Throw (handleApiError http500 "POST /session"), (client0, w'))
        ∧ endpoint (handleApiError http500 "POST /session") = Some "POST /session"
        ∧ sessionStore w' = sessionStore world0
        ∧ timers w' = timers world0
        ∧ new_events world0 w'
          = [EvCall (PostSession (client_server client0) (Some "abc") (Some "example.com"))].
Proof.
  apply (createInbox_service_failure down "abc" "example.com" None client0 world0 0%N http500).
  - discriminate.
  - discriminate.
  - reflexivity.
  - reflexivity.
  - reflexivity.
Defined.

Lemma created_steady :
  createInbox steady addr None (client0, world0)
    = (Return (inbox1 steady), (client1 steady, world1 steady)).
Proof. vm_compute. reflexivity. Defined.

Lemma createInbox_registry_witness :
  getInbox (client1 steady) addr = new_Inbox addr srv (inbox_session (inbox1 steady))
  ∧ JsMap.keys (sessions (client1 steady)) = [addr].
Proof.
  destruct (createInbox_registry steady addr None client0 (client1 steady)
              world0 (world1 steady) (inbox1 steady) created_steady)
    as (Hget & _ & Hkeys & _).
  split; [exact Hget|exact Hkeys].
Defined.

Lemma createInbox_then_hasActiveSession_witness :
  registered_session (client1 steady) (world1 steady) addr = Some (mkSession addr 5000 srv)
  ∧ hasActiveSession (inbox1 steady) (advance 3999 (world1 steady))
    = (Return true, advance 3999 (world1 steady))
  ∧ hasActiveSession (inbox1 steady) (advance 4000 (world1 steady))
    = (Return false, advance 4000 (world1 steady)).
Proof.
  destruct (createInbox_then_hasActiveSession steady addr None client0 (client1 steady)
              world0 (world1 steady) (inbox1 steady) 3999 created_steady)
    as (lat & e & Hpost & Hreg & Hactive & _).
  destruct (createInbox_then_hasActiveSession steady addr None client0 (client1 steady)
              world0 (world1 steady) (inbox1 steady) 4000 created_steady)
    as (lat' & e' & Hpost' & _ & Hactive' & _).
  vm_compute in Hpost. injection Hpost as _ <-.
  vm_compute in Hpost'. injection Hpost' as _ <-.
  split; [exact Hreg|]. split; [exact Hactive|exact Hactive'].
Defined.

Lemma deleteSessionForInbox_unregistered_witness :
  deleteSessionForInbox steady "nobody@x.org" (client3, world3) = (Return tt, (client3, world3)).
Proof.
  apply (deleteSessionForInbox_unregistered steady "nobody@x.org" client3 world3).
  reflexivity.
Defined.

Lemma deleteSessionForInbox_registered_witness :
  (deleteSessionForInbox failing_b "a@x.org" (client3, world3)).1 = Return tt
  ∧ inbox_session (getInbox (deleteSessionForInbox failing_b "a@x.org" (client3, world3)).2.1
                     "a@x.org") = None
  ∧ (deleteSessionForInbox failing_b "b@x.org" (client3, world3)).2.1 = client3.
Proof.
  destruct (deleteSessionForInbox_registered failing_b "a@x.org" 1%positive client3 world3
              unique_keys_client3 eq_refl) as (_ & _ & Hok & _).
  destruct (deleteSessionForInbox_registered failing_b "b@x.org" 2%positive client3 world3
              unique_keys_client3 eq_refl) as (_ & _ & _ & Hfail).
  destruct (Hok 0%N tt eq_refl) as (Hret & Hgone & _).
  destruct (Hfail 0%N (AxiosFailure (mkAxiosError (Some 500) None None "Request failed"))
              eq_refl) as (_ & Hsame).
  split; [exact Hret|]. split; [exact Hgone|exact Hsame].
Defined.

Lemma deleteAllSessions_keeps_failed_witness :
  JsMap.get "b@x.org" (sessions (deleteAllSessions failing_b (client3, world3)).2.1)
    = Some 2%positive
  ∧ JsMap.get "a@x.org" (sessions (deleteAllSessions failing_b (client3, world3)).2.1) = None.
Proof.
  destruct (deleteAllSessions_keeps_failed failing_b client3 world3 1%nat "b@x.org"
              unique_keys_client3 eq_refl) as (_ & Hb).
  destruct (deleteAllSessions_keeps_failed failing_b client3 world3 0%nat "a@x.org"
              unique_keys_client3 eq_refl) as (Ha & _).
  split.
  - exact (proj1 (Hb 0%N (AxiosFailure (mkAxiosError (Some 500) None None "Request failed"))
                    eq_refl)).
  - exact (Ha 0%N tt eq_refl).
Defined.

Lemma getDomains_failure_not_cached_witness :
  ∃ w1, getDomains down (client0, world0)
          = (Throw (handleApiError http500 "GET /domains"), (client0, w1))
        ∧ new_events world0 w1 = [EvCall (GetDomains (client_server client0))]
        ∧ arrayStore w1 = arrayStore world0
        ∧ new_events w1 (getDomains down (client0, w1)).2.2
          = [EvCall (GetDomains (client_server client0))].
Proof.
  apply (getDomains_failure_not_cached down client0 world0 0%N http500); reflexivity.
Defined.

Lemma waitForMail_result_matches_witness :
  default_filter (new_Mail mail1 addr srv) = true
  ∧ mail_address (new_Mail mail1 addr srv) = inbox_address inbox0.
Proof.
  destruct (waitForMail_result_matches steady 1 inbox0 default_filter 120000 2000 world0
              (waitForMail steady 1 inbox0 default_filter 120000 2000 world0).2
              (new_Mail mail1 addr srv)) as (Hf & Ha & _).
  - vm_compute. reflexivity.
  - split; [exact Hf|exact Ha].
Defined.

Lemma waitForMail_new_mail_first_witness :
  ∃ w', waitForMail arriving 1 inbox0 default_filter 120000 2000 world0
          = (Return (new_Mail mail2 addr srv), w')
        ∧ new_events world0 w' = [list_call inbox0; list_call inbox0].
Proof.
  apply (waitForMail_new_mail_first arriving 0 inbox0 default_filter 120000 2000 world0
           0%N 0%N [mail1] [mail1; mail2] (new_Mail mail2 addr srv)).
  - reflexivity.
  - reflexivity.
  - reflexivity.
  - vm_compute. reflexivity.
Defined.

Lemma waitForMail_baseline_failure_witness :
  ∃ w', waitForMail down 0 inbox0 default_filter 0 2000 world0
          = (Throw (handleApiError (AxiosFailure http404) ("GET /mail/" +:+ inbox_address inbox0)),
             w')
        ∧ new_events world0 w' = [list_call inbox0]
        ∧ handleApiError (AxiosFailure http404) ("GET /mail/" +:+ inbox_address inbox0)
          ≠ TimeoutError 0.
Proof.
  apply (waitForMail_baseline_failure down 0 inbox0 default_filter 0 2000 world0 0%N
           (AxiosFailure http404)).
  reflexivity.
Defined.

Lemma waitForMail_request_bound_witness :
  Z.of_nat (count is_list_call
              (new_events world0 (waitForMail steady 9 inbox0 (λ _, false) 500 100 world0).2))
  ≤ Z.max 0 500 / timer_delay 100 + 2.
Proof.
  apply (waitForMail_request_bound steady 9 inbox0 (λ _, false) 500 100 world0).
Defined.

Lemma getAllMail_not_found_witness :
  ∃ w', getAllMail down inbox0 world0 = (Throw (InboxNotFoundError (inbox_address inbox0)), w')
        ∧ new_events world0 w' = [list_call inbox0]
        ∧ statusCode (InboxNotFoundError (inbox_address inbox0)) = Some 404.
Proof.
  apply (getAllMail_not_found down inbox0 world0 0%N http404).
  - discriminate.
  - reflexivity.
  - reflexivity.
  - reflexivity.
Defined.

Lemma getAllMail_mails_witness :
  ∃ mails w', getAllMail steady inbox0 world0 = (Return mails, w')
    ∧ map mail_id mails = ["m1"]
    ∧ map getAttachmentCount mails = [1%nat].
Proof.
  destruct (getAllMail_mails steady inbox0 world0 0%N [mail1] eq_refl)
    as (mails & w' & Hrun & Hids & Hcount & _).
  exists mails, w'. split; [exact Hrun|]. split; [exact Hids|exact Hcount].
Defined.


Lemma disableAutoRefresh_undoes_witness :
  disableAutoRefresh (enableAutoRefresh 1000 inbox0 world0).1
    (enableAutoRefresh 1000 inbox0 world0).2 = (inbox0, world0)
  ∧ timers (disableAutoRefresh
              (enableAutoRefresh 2000 (enableAutoRefresh 1000 inbox0 world0).1
                 (enableAutoRefresh 1000 inbox0 world0).2).1
              (enableAutoRefresh 2000 (enableAutoRefresh 1000 inbox0 world0).1
                 (enableAutoRefresh 1000 inbox0 world0).2).2).2 = ∅.
Proof.
  destruct (disableAutoRefresh_undoes 1000 inbox0 world0) as (Hsame & _ & _ & Hnone & _).
  destruct (disableAutoRefresh_undoes 2000 (enableAutoRefresh 1000 inbox0 world0).1
              (enableAutoRefresh 1000 inbox0 world0).2) as (Hsame' & _ & Hold & _).
  split.
  - rewrite Hsame. apply Hnone. reflexivity.
  - rewrite Hsame'. rewrite (Hold 0%nat eq_refl). reflexivity.
Defined.

Lemma created_flaky :
  inbox_session (inbox1 flaky) = Some 1%positive
  ∧ sessionStore (world1 flaky) !! 1%positive = Some (mkSession addr 5000 srv).
Proof. split; vm_compute; reflexivity. Defined.

Lemma refreshSession_service_failure_witness :
  ∃ w', refreshSession flaky (inbox1 flaky) (world1 flaky)
          = (Throw (handleApiError http500 "POST /session"), w')
        ∧ sessionStore w' = sessionStore (world1 flaky).
Proof.
  destruct (refreshSession_service_failure flaky (inbox1 flaky) 1%positive
              (mkSession addr 5000 srv) (world1 flaky) 0%N http500)
    as (w' & Hrun & Hstore & _).
  - exact (proj1 created_flaky).
  - exact (proj2 created_flaky).
  - vm_compute. reflexivity.
  - vm_compute. reflexivity.
  - exists w'. split; [exact Hrun|exact Hstore].
Defined.

Lemma refreshSession_then_hasActiveSession_witness :
  ∃ lat e,
    post_session shrinking (trace (world1 shrinking)) (inbox_server (inbox1 shrinking))
      (Js.destructure2 (Js.split "@" (inbox_address (inbox1 shrinking)))).1
      (Js.destructure2 (Js.split "@" (inbox_address (inbox1 shrinking)))).2 = (lat, inr e)
    ∧ clock (refreshSession shrinking (inbox1 shrinking) (world1 shrinking)).2
      = clock (world1 shrinking) + Z.of_N lat
    ∧ hasActiveSession (inbox1 shrinking)
        (advance 600 (refreshSession shrinking (inbox1 shrinking) (world1 shrinking)).2)
      = (Return (clock (refreshSession shrinking (inbox1 shrinking) (world1 shrinking)).2
                 + 600 <? e),
         advance 600 (refreshSession shrinking (inbox1 shrinking) (world1 shrinking)).2).
Proof.
  apply (refreshSession_then_hasActiveSession shrinking (inbox1 shrinking) 1%positive
           (mkSession addr 5000 srv) (world1 shrinking)
           (refreshSession shrinking (inbox1 shrinking) (world1 shrinking)).2 600).
  - reflexivity.
  - vm_compute. reflexivity.
  - vm_compute. reflexivity.
Defined.

Lemma getActiveSessions_agrees_witness :
  ∃ ls, getActiveSessions (client1 steady, world1 steady)
          = (Return ls, (client1 steady, world1 steady))
    ∧ (1%positive ∈ ls ↔ clock (world1 steady) < 5000).
Proof.
  destruct (getActiveSessions_agrees (client1 steady) (world1 steady) addr 1%positive
              (mkSession addr 5000 srv)) as (ls & Hrun & Hiff & _).
  - reflexivity.
  - vm_compute. reflexivity.
  - exists ls. split; [exact Hrun|exact Hiff].
Defined.

Lemma getExtension_cases_witness :
  getExtension (λ s, s) photo = Some "png"
  ∧ (isImage (λ s, s) photo = true ↔ "png" ∈ imageExtensions).
Proof.
  apply (proj2 (getExtension_cases (λ s, s) photo) "holiday.2024" "png"); reflexivity.
Defined.

End MoreRuns.

(** ** Every operation but the refresh leaves the Session objects alone *)

Section KeepsSessionsAll.
Variable svc : MailService.

Lemma keeps_getMailForAddress a s : keeps_sessions (getMailForAddress svc a s).
Proof. apply keeps_request. Qed.

Lemma keeps_getRandomUsername s : keeps_sessions (getRandomUsername svc s).
Proof.
  unfold getRandomUsername. apply keeps_bind; [apply keeps_request|]. intros. apply keeps_ret.
Qed.

Lemma keeps_getContactEmail s : keeps_sessions (getContactEmail svc s).
Proof.
  unfold getContactEmail. apply keeps_bind; [apply keeps_request|]. intros. apply keeps_ret.
Qed.

Lemma keeps_random_index n : keeps_sessions (random_index svc n).
Proof. intros w. done. Qed.

Lemma client_keeps_createRandomInbox options :
  client_keeps_sessions (createRandomInbox svc options).
Proof.
  unfold createRandomInbox.
  apply client_keeps_bind; [apply client_keeps_getDomains|]. intros domainsRef.
  apply client_keeps_bind; [apply client_keeps_liftW, keeps_read_array|]. intros domains.
  apply client_keeps_bind; [apply client_keeps_liftW, keeps_random_index|]. intros index.
  apply client_keeps_bind; [apply client_keeps_this|]. intros this.
  apply client_keeps_bind; [apply client_keeps_liftW, keeps_getRandomUsername|].
  intros username. apply client_keeps_createInbox.
Qed.

(** C5 (as the code has it): [expires] of a Session object is written by a
    successful [refreshSession] and by nothing else.  A refresh that
    succeeds has put the expiry the service granted in the place of the
    old one, whichever of the two is later, so [expires] does not decrease
    exactly when the service grants no earlier expiry; a refresh of a
    valid Session that the service grants does succeed; a refresh that
    does not succeed, and every other operation of the client, the inbox,
    the mails, the attachments and the routes, leaves each existing
    Session object as it is. *)
Theorem expires_written_by_refresh_only :
  (∀ this w w',
     refreshSession svc this w = (Return tt, w') →
     ∃ l s lat e,
       inbox_session this = Some l
       ∧ sessionStore w !! l = Some s
       ∧ clock w < expires s
       ∧ post_session svc (trace w) (inbox_server this)
           (Js.destructure2 (Js.split "@" (inbox_address this))).1
           (Js.destructure2 (Js.split "@" (inbox_address this))).2 = (lat, inr e)
       ∧ sessionStore w' = <[l := mkSession (address s) e (server s)]> (sessionStore w)
       ∧ (expires s ≤ e ↔
            ∃ s', sessionStore w' !! l = Some s' ∧ expires s ≤ expires s'))
  ∧ (∀ this l s w lat e,
       inbox_session this = Some l →
       sessionStore w !! l = Some s →
       clock w < expires s →
       post_session svc (trace w) (inbox_server this)
         (Js.destructure2 (Js.split "@" (inbox_address this))).1
         (Js.destructure2 (Js.split "@" (inbox_address this))).2 = (lat, inr e) →
       (refreshSession svc this w).1 = Return tt
       ∧ sessionStore (refreshSession svc this w).2 !! l
         = Some (mkSession (address s) e (server s)))
  ∧ (∀ this w,
       (refreshSession svc this w).1 ≠ Return tt →
       sessionStore (refreshSession svc this w).2 = sessionStore w)
  ∧ (∀ fuel this filter timeout interval,
       keeps_sessions (waitForMail svc fuel this filter timeout interval))
  ∧ (∀ this, keeps_sessions (getAllMail svc this))
  ∧ (∀ this, keeps_sessions (hasActiveSession this))
  ∧ (∀ this, keeps_sessions (Inbox_deleteAllMail svc this))
  ∧ (∀ flag this w, sessionStore w ⊆ sessionStore (cleanup svc flag (this, w)).2.2)
  ∧ (∀ interval this w, sessionStore (enableAutoRefresh interval this w).2 = sessionStore w)
  ∧ (∀ this w, sessionStore (disableAutoRefresh this w).2 = sessionStore w)
  ∧ (∀ mail, keeps_sessions (Mail_delete svc mail))
  ∧ (∀ attachment, keeps_sessions (Attachment_download svc attachment))
  ∧ client_keeps_sessions (getDomains svc)
  ∧ (∀ addr options, client_keeps_sessions (createInbox svc addr options))
  ∧ (∀ options, client_keeps_sessions (createRandomInbox svc options))
  ∧ (∀ addr, client_keeps_sessions (deleteSessionForInbox svc addr))
  ∧ client_keeps_sessions (deleteAllSessions svc)
  ∧ client_keeps_sessions getActiveSessions
  ∧ (∀ s, keeps_sessions (getAvailableDomains svc s))
  ∧ (∀ a s, keeps_sessions (getMailForAddress svc a s))
  ∧ (∀ a m s, keeps_sessions (getSingleMail svc a m s))
  ∧ (∀ a m s, keeps_sessions (deleteMail svc a m s))
  ∧ (∀ a s, keeps_sessions (deleteAllMailForAddress svc a s))
  ∧ (∀ a m i s, keeps_sessions (downloadAttachment svc a m i s))
  ∧ (∀ a m s, keeps_sessions (getAttachments svc a m s))
  ∧ (∀ u d s, keeps_sessions (createSession svc u d s))
  ∧ (∀ u d s, keeps_sessions (deleteSession svc u d s))
  ∧ (∀ s, keeps_sessions (getContactEmail svc s))
  ∧ (∀ s, keeps_sessions (getRandomUsername svc s)).
Proof.
  assert (Hrun : ∀ this l s w, inbox_session this = Some l → sessionStore w !! l = Some s →
            clock w < expires s → ∀ lat r,
            post_session svc (trace w) (inbox_server this)
              (Js.destructure2 (Js.split "@" (inbox_address this))).1
              (Js.destructure2 (Js.split "@" (inbox_address this))).2 = (lat, r) →
            refreshSession svc this w
            = (match r with
               | inr e => Return tt
               | inl f => Throw (handleApiError f "POST /session")
               end,
               match r with
               | inr e =>
                   with_sessionStore (<[l := set_expires e s]> (sessionStore w))
                     (advance (Z.of_N lat)
                        (record_event
                           (EvCall (PostSession (inbox_server this)
                              (Js.destructure2 (Js.split "@" (inbox_address this))).1
                              (Js.destructure2 (Js.split "@" (inbox_address this))).2)) w))
               | inl f =>
                   advance (Z.of_N lat)
                     (record_event
                        (EvCall (PostSession (inbox_server this)
                           (Js.destructure2 (Js.split "@" (inbox_address this))).1
                           (Js.destructure2 (Js.split "@" (inbox_address this))).2)) w)
               end)).
  { intros this l s w Hs Hl Hvalid lat r Hpost.
    rewrite (refreshSession_valid_run svc this l s w Hs Hl Hvalid).
    destruct (Js.destructure2 _) as [u d]. cbn [fst snd] in *. rewrite Hpost.
    by destruct r. }
  assert (Hcases : ∀ this w,
            (refreshSession svc this w).1 ≠ Return tt
            ∧ sessionStore (refreshSession svc this w).2 = sessionStore w
            ∨ ∃ l s lat e,
                inbox_session this = Some l ∧ sessionStore w !! l = Some s
                ∧ clock w < expires s
                ∧ post_session svc (trace w) (inbox_server this)
                    (Js.destructure2 (Js.split "@" (inbox_address this))).1
                    (Js.destructure2 (Js.split "@" (inbox_address this))).2 = (lat, inr e)).
  { intros this w.
    destruct (inbox_session this) as [l|] eqn:Hs.
    2:{ left. unfold refreshSession. by rewrite Hs. }
    destruct (sessionStore w !! l) as [s|] eqn:Hl.
    2:{ left. unfold refreshSession, bind, read_session. by rewrite Hs, Hl. }
    destruct (Z.lt_ge_cases (clock w) (expires s)) as [Hvalid|Hexp].
    2:{ left. by rewrite (refreshSession_expired_run svc this l s w Hs Hl Hexp). }
    destruct (post_session svc (trace w) (inbox_server this)
                (Js.destructure2 (Js.split "@" (inbox_address this))).1
                (Js.destructure2 (Js.split "@" (inbox_address this))).2)
      as [lat [f|e]] eqn:Hpost.
    - left. by rewrite (Hrun this l s w Hs Hl Hvalid lat (inl f) Hpost).
    - right. exists l, s, lat, e. done. }
  split; [|split; [|split]].
  - intros this w w' Hok.
    destruct (Hcases this w) as [[Hne _]|(l & s & lat & e & Hs & Hl & Hvalid & Hpost)].
    { rewrite Hok in Hne. done. }
    exists l, s, lat, e.
    rewrite (Hrun this l s w Hs Hl Hvalid lat (inr e) Hpost) in Hok.
    injection Hok as <-. cbn [sessionStore with_sessionStore].
    repeat split; try done.
    + intros Hle. eexists. by rewrite lookup_insert_eq.
    + intros (s' & Hs' & Hle). rewrite lookup_insert_eq in Hs'.
      injection Hs' as <-. exact Hle.
  - intros this l s w lat e Hs Hl Hvalid Hpost.
    rewrite (Hrun this l s w Hs Hl Hvalid lat (inr e) Hpost). cbn.
    by rewrite lookup_insert_eq.
  - intros this w Hne.
    destruct (Hcases this w) as [[_ Hsame]|(l & s & lat & e & Hs & Hl & Hvalid & Hpost)];
      [done|].
    rewrite (Hrun this l s w Hs Hl Hvalid lat (inr e) Hpost) in Hne. done.
  - repeat split.
    + apply keeps_waitForMail.
    + apply keeps_getAllMail.
    + apply keeps_hasActiveSession.
    + intros this. apply keeps_request.
    + apply keeps_cleanup.
    + apply keeps_enableAutoRefresh.
    + apply keeps_disableAutoRefresh.
    + intros mail. apply keeps_request.
    + intros attachment. apply keeps_request.
    + apply client_keeps_getDomains.
    + apply client_keeps_createInbox.
    + apply client_keeps_createRandomInbox.
    + apply client_keeps_deleteSessionForInbox.
    + apply client_keeps_deleteAllSessions.
    + apply client_keeps_getActiveSessions.
    + apply keeps_getAvailableDomains.
    + apply keeps_getMailForAddress.
    + intros. apply keeps_request.
    + intros. apply keeps_request.
    + intros. apply keeps_request.
    + intros. apply keeps_request.
    + intros. apply keeps_request.
    + apply keeps_createSession.
    + apply keeps_deleteSession.
    + apply keeps_getContactEmail.
    + apply keeps_getRandomUsername.
Qed.

End KeepsSessionsAll.

(** ** Calls of [getDomains] that overlap *)

Section OverlappingCalls.
Variable svc : Service.

(** A call that is resumed as soon as it was made is the call of
    [getDomains]. *)
Lemma getDomains_halves (c : TacomailClient) (w : World) :
  getDomains_resume (getDomains_start svc (c, w)).1 (getDomains_start svc (c, w)).2
  = getDomains svc (c, w).
Proof.
  destruct (domainsCache c) as [l|] eqn:Hc;
    unfold getDomains_start, getDomains, bind, this_client; rewrite Hc.
  - unfold ret, liftW, read_array.
    destruct (arrayStore w !! l) as [xs|]; reflexivity.
  - unfold send. destruct (get_domains svc (trace w) (client_server c)) as [lat r] eqn:Hget.
    cbn [fst snd getDomains_resume].
    unfold bind, liftW, getAvailableDomains, bind, request, send, settle.
    rewrite Hget. cbn [record_event clock].
    replace (Z.max (clock w) (clock w + Z.of_N lat) - clock w) with (Z.of_N lat) by lia.
    destruct r as [f|ds]; [reflexivity|].
    cbn. unfold read_array. cbn. rewrite lookup_insert_eq. reflexivity.
Qed.

End OverlappingCalls.

Section OverlappingRuns.
Import Scenario Cases.

(** Two calls of [getDomains] of which the second is made before the
    first has returned: both find the cache empty, both send the request,
    both return the list. *)
Lemma getDomains_overlapping_fetch_twice :
  let '(first, st1) := getDomains_start steady (client0, world0) in
  let '(second, st2) := getDomains_start steady st1 in
  let '(r1, st3) := getDomains_resume first st2 in
  let '(r2, st4) := getDomains_resume second st3 in
  (∃ l1 l2, r1 = Return l1 ∧ r2 = Return l2
            ∧ arrayStore st4.2 !! l1 = Some ["example.com"; "tacomail.de"]
            ∧ arrayStore st4.2 !! l2 = Some ["example.com"; "tacomail.de"])
  ∧ new_events world0 st4.2 = [EvCall (GetDomains srv); EvCall (GetDomains srv)]
  ∧ count is_domains_call (new_events world0 st4.2) = 2%nat
  ∧ count is_domains_call (new_events world0 st4.2) ≠ 1%nat.
Proof.
  vm_compute. split; [|split; [reflexivity|split; [reflexivity|discriminate]]].
  eexists _, _. repeat split; reflexivity.
Qed.

Lemma expires_written_by_refresh_only_witness :
  sessionStore (refreshSession shrinking (inbox1 shrinking) (world1 shrinking)).2
    !! 1%positive = Some (mkSession addr 1500 srv)
  ∧ sessionStore (world1 shrinking) !! 1%positive = Some (mkSession addr 5000 srv).
Proof.
  destruct (proj1 (expires_written_by_refresh_only (full shrinking)) (inbox1 shrinking)
              (world1 shrinking)
              (refreshSession shrinking (inbox1 shrinking) (world1 shrinking)).2)
    as (l & s & lat & e & Hl & Hs & _ & Hpost & Hstore & _).
  - vm_compute. reflexivity.
  - change (core (full shrinking)) with shrinking in Hpost.
    rewrite Hstore. injection Hl as <-.
    vm_compute in Hs. injection Hs as <-.
    vm_compute in Hpost. injection Hpost as _ <-.
    split; [|vm_compute; reflexivity].
    by rewrite lookup_insert_eq.
Defined.

End OverlappingRuns.
